(** * CreditRisk-AI-Suite: task coordination and retrying agents

    A shallow embedding of [src/agents/task_definitions.py]
    ([TaskCoordinator], [BaseTask.validate_result]) and of
    [src/agents/base_agent.py] ([AgentConfig], [BaseAgent._retry_operation]),
    with the properties of the scheduler specification stated over it.

    Conventions.
    - A Python [dict] that is iterated (the coordinator's [tasks], a
      definition's [success_criteria]) is an insertion-ordered association
      list with unique keys; a [dict] that is only probed ([result.data]) is
      a [gmap]; a Python [set] is a [gset].
    - A Python exception is a value of [exn]; a function that may raise
      returns a [res].  The one recursive function, the [dfs] of
      [resolve_dependencies], takes a recursion budget and returns [None]
      when it runs out, which is shown never to happen.
    - The opaque collaborators (the agents behind [task.execute], the
      callable handed to [_retry_operation]) are oracles: functions that
      give the outcome of each call.  So is the interpreter where float
      arithmetic and [time.sleep] may raise. *)

From Stdlib Require Import ZArith QArith Qpower Qabs String List Lia.
From stdpp Require Import base option list strings gmap.

Set Warnings "-clear-no-such-hyp".

Local Open Scope string_scope.
Local Open Scope list_scope.

(** ** Python values, exceptions and results *)

(** The values that occur in result data and in success criteria.  A float
    is read as the rational it denotes. *)
Inductive pyval : Type :=
  | PNone
  | PBool (b : bool)
  | PInt (z : Z)
  | PFloat (q : Q)
  | PStr (s : string).

(** The numeric reading of a value, when it has one ([True == 1]). *)
Definition py_num (v : pyval) : option Q :=
  match v with
  | PBool b => Some (inject_Z (if b then 1 else 0))
  | PInt z => Some (inject_Z z)
  | PFloat q => Some q
  | PNone | PStr _ => None
  end.

(** [a == b] *)
Definition py_eqb (a b : pyval) : bool :=
  match py_num a, py_num b with
  | Some x, Some y => Qeq_bool x y
  | _, _ =>
      match a, b with
      | PNone, PNone => true
      | PStr s, PStr t => bool_decide (s = t)
      | _, _ => false
      end
  end.

(** [a != b] *)
Definition py_neb (a b : pyval) : bool := negb (py_eqb a b).

(** [type(v).__name__] *)
Definition type_name (v : pyval) : string :=
  match v with
  | PNone => "NoneType"
  | PBool _ => "bool"
  | PInt _ => "int"
  | PFloat _ => "float"
  | PStr _ => "str"
  end.

Inductive exn : Type :=
  | ValueError (msg : string)
  | TypeError (msg : string)
  | AttributeError (msg : string)
  | OverflowError (msg : string)
  | Exception (msg : string).

(** [str(e)] *)
Definition exn_str (e : exn) : string :=
  match e with
  | ValueError m | TypeError m | AttributeError m | OverflowError m
  | Exception m => m
  end.

(** The outcome of a call: a value or a raised exception. *)
Inductive res (A : Type) : Type :=
  | Ok (a : A)
  | Raise (e : exn).
Arguments Ok {A} a.
Arguments Raise {A} e.

(** [for x in xs: body(x)] over a threaded state, stopping at the first
    exception; [None] when a call of the body ran out of budget. *)
Fixpoint for_each {A S} (body : A -> S -> option (res S)) (xs : list A) (s : S)
    : option (res S) :=
  match xs with
  | [] => Some (Ok s)
  | x :: rest =>
      match body x s with
      | Some (Ok s') => for_each body rest s'
      | stopped => stopped
      end
  end.

(** ** Insertion-ordered dictionaries *)

Module Dict.

Definition t (V : Type) : Type := list (string * V).

Definition keys {V} (d : t V) : list string := map fst d.

Fixpoint get {V} (k : string) (d : t V) : option V :=
  match d with
  | [] => None
  | (k', v) :: rest => if decide (k = k') then Some v else get k rest
  end.

(** [k in d] *)
Definition mem {V} (k : string) (d : t V) : bool :=
  match get k d with Some _ => true | None => false end.

(** [d[k] = v]: an existing key keeps its place, a new key goes last. *)
Fixpoint set {V} (k : string) (v : V) (d : t V) : t V :=
  match d with
  | [] => [(k, v)]
  | (k', v') :: rest =>
      if decide (k = k') then (k', v) :: rest else (k', v') :: set k v rest
  end.

End Dict.

(** ** [base_agent.py]: configuration, results and the retry loop *)

Module AgentStatus.
Inductive t : Type := IDLE | RUNNING | SUCCESS | FAILED | RETRYING.
End AgentStatus.

Record AgentConfig : Type := mkAgentConfig {
  agent_max_retries : Z;
  agent_retry_delay : Q;
  agent_retry_backoff : Q;
  agent_timeout : Z
}.

(** [AgentConfig.__post_init__]: the checks a configuration passes when it
    is built. *)
Definition post_init (c : AgentConfig) : res AgentConfig :=
  if (agent_max_retries c <? 0)%Z then
    Raise (ValueError "max_retries must be non-negative")
  else if Qlt_le_dec (agent_retry_delay c) 0 then
    Raise (ValueError "retry_delay must be non-negative")
  else if (agent_timeout c <? 0)%Z then
    Raise (ValueError "timeout must be non-negative")
  else Ok c.

Record AgentResult : Type := mkAgentResult {
  success : bool;
  data : option (gmap string pyval);
  error : option string;
  result_status : AgentStatus.t
}.

(** What one call of the operation handed to [_retry_operation] does. *)
Inductive op_outcome : Type :=
  | OpReturns (r : AgentResult)
  | OpRaises (e : exn).

Definition op_failed (o : op_outcome) : bool :=
  match o with
  | OpReturns r => negb (success r)
  | OpRaises _ => true
  end.

(** What the agent does to the outside: it calls the operation and it
    calls [time.sleep]. *)
Inductive event : Type :=
  | Invoke (attempt : nat)
  | Sleep (seconds : Q).

(** The two operations of the retry loop that the interpreter may refuse.
    The configuration holds finite floats, read as the rationals they
    denote, and the delay is written here in exact arithmetic; what the
    float operations add to that, their exceptions, is left to the
    interpreter at hand:
    - [power_raises b k]: the exception [b ** k] raises, if any
      ([OverflowError] when the power leaves the range of a float);
    - [sleep_raises d]: the exception [time.sleep] raises on the delay of
      exact value [d], if any ([ValueError] for a negative length,
      [OverflowError] for a length beyond the range of the clock). *)
Record interpreter : Type := mkInterpreter {
  power_raises : Q -> nat -> option exn;
  sleep_raises : Q -> option exn
}.

(** The fields of [BaseAgent] that the retry loop touches, the interpreter
    the agent runs on, and the log of its calls, oldest first. *)
Record agent : Type := mkAgent {
  config : AgentConfig;
  agent_status : AgentStatus.t;
  retry_count : Z;
  host : interpreter;
  calls : list event
}.

Definition log_call (e : event) (a : agent) : agent :=
  {| config := config a; agent_status := agent_status a;
     retry_count := retry_count a; host := host a; calls := calls a ++ [e] |}.

(** [self.retry_count = attempt], and [RETRYING] from the second attempt on. *)
Definition begin_attempt (attempt : nat) (a : agent) : agent :=
  {| config := config a;
     agent_status :=
       if (0 <? Z.of_nat attempt)%Z then AgentStatus.RETRYING else agent_status a;
     retry_count := Z.of_nat attempt;
     host := host a;
     calls := calls a |}.

(** The value of [self.config.retry_delay * (self.config.retry_backoff **
    attempt)] in exact arithmetic. *)
Definition sleep_time (c : AgentConfig) (attempt : nat) : Q :=
  agent_retry_delay c * agent_retry_backoff c ^ Z.of_nat attempt.

(** [sleep_time = self.config.retry_delay * (self.config.retry_backoff **
    attempt)]: the power may raise. *)
Definition compute_sleep_time (a : agent) (attempt : nat) : res Q :=
  match power_raises (host a) (agent_retry_backoff (config a)) attempt with
  | Some e => Raise e
  | None => Ok (sleep_time (config a) attempt)
  end.

(** [time.sleep(seconds)]: the call is made, and may raise. *)
Definition time_sleep (seconds : Q) (a : agent) : res unit * agent :=
  match sleep_raises (host a) seconds with
  | Some e => (Raise e, log_call (Sleep seconds) a)
  | None => (Ok tt, log_call (Sleep seconds) a)
  end.

(** The two lines [sleep_time = ...; time.sleep(sleep_time)] that both
    branches of the loop body share. *)
Definition back_off (attempt : nat) (a : agent) : res unit * agent :=
  match compute_sleep_time a attempt with
  | Ok seconds => time_sleep seconds a
  | Raise e => (Raise e, a)
  end.

(** [_handle_error(error, operation)] *)
Definition _handle_error (e : exn) (operation : string) : AgentResult :=
  {| success := false; data := None;
     error := Some (operation ++ " failed: " ++ exn_str e)%string;
     result_status := AgentStatus.FAILED |}.

Definition max_retries_exceeded : AgentResult :=
  {| success := false; data := None; error := Some "Max retries exceeded";
     result_status := AgentStatus.FAILED |}.

Section Retry.

(** The outcome of the call made at each attempt. *)
Variable operation : nat -> op_outcome.

(** The [except Exception] handler of the loop body.  What it raises
    leaves [_retry_operation]. *)
Definition on_exception (e : exn) (attempt : nat) (a : agent)
    : res (option AgentResult) * agent :=
  if (Z.of_nat attempt <? agent_max_retries (config a))%Z then
    match back_off attempt a with
    | (Ok _, a') => (Ok None, a')
    | (Raise e', a') => (Raise e', a')
    end
  else (Ok (Some (_handle_error e "Retry operation")), a).

(** One turn of the loop: [Ok (Some r)] returns [r], [Ok None] goes on to
    the next attempt. *)
Definition attempt_once (attempt : nat) (a : agent)
    : res (option AgentResult) * agent :=
  let a1 := log_call (Invoke attempt) (begin_attempt attempt a) in
  match operation attempt with
  | OpReturns r =>
      if success r then (Ok (Some r), a1)
      else if (Z.of_nat attempt <? agent_max_retries (config a1))%Z then
        match back_off attempt a1 with
        | (Ok _, a2) => (Ok None, a2)
        | (Raise e, a2) => on_exception e attempt a2
        end
      else (Ok None, a1)
  | OpRaises e => on_exception e attempt a1
  end.

Fixpoint retry_loop (attempts : list nat) (a : agent) : res AgentResult * agent :=
  match attempts with
  | [] => (Ok max_retries_exceeded, a)
  | attempt :: rest =>
      match attempt_once attempt a with
      | (Ok (Some r), a') => (Ok r, a')
      | (Ok None, a') => retry_loop rest a'
      | (Raise e, a') => (Raise e, a')
      end
  end.

(** [range(self.config.max_retries + 1)] *)
Definition attempts_of (c : AgentConfig) : list nat :=
  seq 0 (Z.to_nat (agent_max_retries c + 1)).

Definition _retry_operation (a : agent) : res AgentResult * agent :=
  retry_loop (attempts_of (config a)) a.

End Retry.

(** The pause after attempt [attempt] raises [e]: the power does, or
    [time.sleep] does on the delay. *)
Definition pause_raises (h : interpreter) (c : AgentConfig) (attempt : nat)
    (e : exn) : Prop :=
  power_raises h (agent_retry_backoff c) attempt = Some e
  \/ (power_raises h (agent_retry_backoff c) attempt = None
      /\ sleep_raises h (sleep_time c attempt) = Some e).

(** Reading the log: the number of calls of the operation, and what
    followed the call made at attempt [k]. *)
Definition is_invoke (e : event) : bool :=
  match e with Invoke _ => true | Sleep _ => false end.

Definition invocations (l : list event) : nat :=
  length (List.filter is_invoke l).

Fixpoint after_invoke (k : nat) (l : list event) : option (list event) :=
  match l with
  | [] => None
  | Invoke j :: rest => if decide (j = k) then Some rest else after_invoke k rest
  | Sleep _ :: rest => after_invoke k rest
  end.

(** The retry policy, read off the log: [post] is what followed the call
    made at attempt [k].  A successful call is the last event, and so is a
    failed call with [k >= max_retries].  After a failed call with
    [k < max_retries] the agent computes the delay
    [retry_delay * retry_backoff ** k]: when the power raises nothing
    follows; otherwise [time.sleep] is called with that delay, and the call
    of attempt [k + 1] follows when it returns, and no further call of the
    operation when it raises. *)
Definition follows_policy (operation : nat -> op_outcome) (h : interpreter)
    (c : AgentConfig) (k : nat) (post : list event) : Prop :=
  (op_failed (operation k) = false -> post = [])
  /\ (op_failed (operation k) = true ->
      (~ (Z.of_nat k < agent_max_retries c)%Z -> post = [])
      /\ ((Z.of_nat k < agent_max_retries c)%Z ->
          match power_raises h (agent_retry_backoff c) k with
          | Some _ => post = []
          | None =>
              match sleep_raises h (sleep_time c k) with
              | None =>
                  exists post',
                    post = Sleep (sleep_time c k) :: Invoke (S k) :: post'
              | Some _ =>
                  exists post',
                    post = Sleep (sleep_time c k) :: post'
                    /\ invocations post' = 0
              end
          end)).

(** ** Enumerations and records of [task_definitions.py] *)

Inductive TaskStatus : Type :=
  | PENDING | RUNNING | COMPLETED | FAILED | CANCELLED | RETRYING.

Inductive TaskType : Type :=
  | DATA_COLLECTION | RISK_ANALYSIS | DOCUMENTATION | REPORTING
  | VALIDATION | APPROVAL.

#[global] Instance TaskStatus_eq_dec : EqDecision TaskStatus.
Proof. solve_decision. Defined.

#[global] Instance TaskType_eq_dec : EqDecision TaskType.
Proof. solve_decision. Defined.

(** A value of a definition's [metadata]: a dictionary, or a value of
    another type. *)
Inductive metadata_value : Type :=
  | MDict (d : gmap string pyval)
  | MValue (v : pyval).

Record TaskDefinition : Type := mkTaskDefinition {
  task_id : string;
  task_type : TaskType;
  timeout : Z;
  max_retries : Z;
  retry_delay : Z;
  dependencies : list string;
  success_criteria : Dict.t pyval;
  metadata : gmap string metadata_value
}.

Record TaskExecution : Type := mkTaskExecution {
  task_definition : TaskDefinition;
  status : TaskStatus;
  start_time : option Z;
  end_time : option Z;
  result : option AgentResult;
  exec_error : option string
}.

(** [TaskExecution(task_definition=..., context=...)] with its defaults. *)
Definition new_execution (d : TaskDefinition) : TaskExecution :=
  {| task_definition := d; status := PENDING; start_time := None;
     end_time := None; result := None; exec_error := None |}.

(** [BaseTask]: an instance is its definition; the task body is opaque. *)
Record BaseTask : Type := mkBaseTask { definition : TaskDefinition }.

(** ** [BaseTask.validate_result] *)

(** The loop over [success_criteria.items()]: [Ok false] at the first
    criterion that is present in the data with a different value; probing
    [data = None] raises. *)
Fixpoint check_criteria (criteria : Dict.t pyval)
    (d : option (gmap string pyval)) : res bool :=
  match criteria with
  | [] => Ok true
  | (criterion, expected_value) :: rest =>
      match d with
      | None => Raise (TypeError "argument of type 'NoneType' is not iterable")
      | Some m =>
          match m !! criterion with
          | Some v =>
              if py_neb v expected_value then Ok false
              else check_criteria rest d
          | None => check_criteria rest d
          end
      end
  end.

Definition validate_result (self : BaseTask) (r : AgentResult) : res bool :=
  if negb (success r) then Ok false
  else check_criteria (success_criteria (definition self)) (data r).

(** ** The task classes and [_create_task_instance] *)

Section Classes.

(** The id a task class computes for a new instance (an f-string of the
    class name, the customer id and [time.time()]). *)
Variable generated_id : TaskType -> string.

(** Of the definition a class builds, the part that does not depend on the
    arguments of its constructor, and the generated id.  The metadata only
    records values of the arguments ([customer_id], [collection_scope],
    [loan_amount], [loan_type], [risk_level], [report_type]) and is left
    empty; none of these keys is one whose value a constructor
    dereferences. *)
Definition DataCollectionTask : BaseTask :=
  {| definition :=
       {| task_id := generated_id DATA_COLLECTION;
          task_type := DATA_COLLECTION;
          timeout := 600; max_retries := 3; retry_delay := 30;
          dependencies := [];
          success_criteria :=
            [("data_sources_count", PInt 3);
             ("collection_quality", PFloat (8 # 10))];
          metadata := ∅ |} |}.

Definition RiskAnalysisTask : BaseTask :=
  {| definition :=
       {| task_id := generated_id RISK_ANALYSIS;
          task_type := RISK_ANALYSIS;
          timeout := 900; max_retries := 2; retry_delay := 30;
          dependencies := ["data_collection"];
          success_criteria :=
            [("risk_level", PStr "defined");
             ("confidence_level", PFloat (7 # 10))];
          metadata := ∅ |} |}.

Definition DocumentationTask : BaseTask :=
  {| definition :=
       {| task_id := generated_id DOCUMENTATION;
          task_type := DOCUMENTATION;
          timeout := 600; max_retries := 2; retry_delay := 30;
          dependencies := ["data_collection"; "risk_analysis"];
          success_criteria :=
            [("compliance_status", PStr "Compliant");
             ("sections_count", PInt 4)];
          metadata := ∅ |} |}.

Definition ReportingTask : BaseTask :=
  {| definition :=
       {| task_id := generated_id REPORTING;
          task_type := REPORTING;
          timeout := 300; max_retries := 2; retry_delay := 30;
          dependencies := ["data_collection"; "risk_analysis"; "documentation"];
          success_criteria :=
            [("recommendations_count", PInt 1);
             ("executive_summary", PStr "complete")];
          metadata := ∅ |} |}.

(** [task_def.metadata.get(key, {})], handed to a constructor that calls
    [.get] on it while it builds its definition: a value that is not a
    dictionary has no such attribute. *)
Definition dict_argument (task_def : TaskDefinition) (key : string)
    : res (gmap string pyval) :=
  match metadata task_def !! key with
  | None => Ok ∅
  | Some (MDict d) => Ok d
  | Some (MValue v) =>
      Raise (AttributeError
               ("'" ++ type_name v ++ "' object has no attribute 'get'"))
  end.

(** The constructors read [loan_details.get] ([RiskAnalysisTask]),
    [loan_details.get] and then [risk_assessment.get]
    ([DocumentationTask]), and [risk_assessment.get] ([ReportingTask]);
    [DataCollectionTask] dereferences none of its arguments. *)
Definition _create_task_instance (task_def : TaskDefinition) : res BaseTask :=
  match task_type task_def with
  | DATA_COLLECTION => Ok DataCollectionTask
  | RISK_ANALYSIS =>
      match dict_argument task_def "loan_details" with
      | Ok _ => Ok RiskAnalysisTask
      | Raise e => Raise e
      end
  | DOCUMENTATION =>
      match dict_argument task_def "loan_details" with
      | Ok _ =>
          match dict_argument task_def "risk_assessment" with
          | Ok _ => Ok DocumentationTask
          | Raise e => Raise e
          end
      | Raise e => Raise e
      end
  | REPORTING =>
      match dict_argument task_def "risk_assessment" with
      | Ok _ => Ok ReportingTask
      | Raise e => Raise e
      end
  | VALIDATION => Raise (ValueError "Unknown task type: TaskType.VALIDATION")
  | APPROVAL => Raise (ValueError "Unknown task type: TaskType.APPROVAL")
  end.

End Classes.

(** ** [TaskCoordinator] *)

Record TaskCoordinator : Type := mkTaskCoordinator {
  tasks : Dict.t TaskExecution;
  execution_order : list string
}.

(** [TaskCoordinator()] *)
Definition new_coordinator : TaskCoordinator :=
  {| tasks := []; execution_order := [] |}.

(** [add_task]: returns the new coordinator and the task id. *)
Definition add_task (task : BaseTask) (self : TaskCoordinator)
    : TaskCoordinator * string :=
  let task_execution := new_execution (definition task) in
  ({| tasks := Dict.set (task_id (definition task)) task_execution (tasks self);
      execution_order := execution_order self |},
   task_id (definition task)).

(** *** [resolve_dependencies] *)

Record dfs_state : Type := mkDfsState {
  execution_levels : list (list string);
  visited : gset string;
  temp_visited : gset string
}.

(** [while len(execution_levels) <= level: execution_levels.append([])]
    followed by [execution_levels[level].append(node)]. *)
Definition place (node : string) (level : nat) (levels : list (list string))
    : list (list string) :=
  alter (fun l => l ++ [node]) level
        (levels ++ replicate (S level - length levels) []).

Section Resolve.

Variable self_tasks : Dict.t TaskExecution.

(** [dependency_graph]: one entry per task, in registration order. *)
Definition dependency_graph : Dict.t (list string) :=
  map (fun kv => (fst kv, dependencies (task_definition (snd kv)))) self_tasks.

Definition circular (node : string) : exn :=
  ValueError ("Circular dependency detected: " ++ node)%string.

(** The nested [dfs(node, level)].  [fuel] bounds the recursion depth. *)
Fixpoint dfs (fuel : nat) (node : string) (level : nat) (st : dfs_state)
    : option (res dfs_state) :=
  match fuel with
  | O => None
  | S fuel' =>
      if decide (node ∈ temp_visited st) then Some (Raise (circular node))
      else if decide (node ∈ visited st) then Some (Ok st)
      else
        match
          for_each
            (fun dep s =>
               if Dict.mem dep self_tasks then dfs fuel' dep (S level) s
               else Some (Ok s))
            (default [] (Dict.get node dependency_graph))
            {| execution_levels := execution_levels st;
               visited := visited st;
               temp_visited := {[node]} ∪ temp_visited st |}
        with
        | Some (Ok st') =>
            Some (Ok {| execution_levels := place node level (execution_levels st');
                        visited := {[node]} ∪ visited st';
                        temp_visited := temp_visited st' ∖ {[node]} |})
        | stopped => stopped
        end
  end.

(** The recursion never goes deeper than the number of registered tasks:
    every frame holds a distinct registered id in [temp_visited]. *)
Definition dfs_fuel : nat := S (length self_tasks).

(** [for task_id in self.tasks.keys(): if task_id not in visited: dfs(task_id, 0)] *)
Definition resolve_loop (st : dfs_state) : option (res dfs_state) :=
  for_each
    (fun task_id s =>
       if decide (task_id ∈ visited s) then Some (Ok s)
       else dfs dfs_fuel task_id 0 s)
    (Dict.keys self_tasks) st.

Definition initial_state : dfs_state :=
  {| execution_levels := []; visited := ∅; temp_visited := ∅ |}.

Definition resolve_levels : option (res (list (list string))) :=
  match resolve_loop initial_state with
  | Some (Ok st) => Some (Ok (execution_levels st))
  | Some (Raise e) => Some (Raise e)
  | None => None
  end.

End Resolve.

(** [resolve_dependencies]: the levels, and the coordinator with
    [execution_order] assigned; an exception leaves the coordinator as it
    was. *)
Definition resolve_dependencies (self : TaskCoordinator)
    : option (res (list (list string)) * TaskCoordinator) :=
  match resolve_levels (tasks self) with
  | Some (Ok levels) =>
      Some (Ok levels,
            {| tasks := tasks self; execution_order := concat levels |})
  | Some (Raise e) => Some (Raise e, self)
  | None => None
  end.

(** *** [execute_task] *)

(** What the opaque task body does when [execute_task] runs it. *)
Inductive work_outcome : Type :=
  | PrerequisitesNotMet            (* [validate_prerequisites] returns [False] *)
  | Returns (r : AgentResult)      (* [task.execute] returns [r] *)
  | Raises (e : exn).              (* one of the two raises [e] *)

(** A run: the coordinator, the clock read by [datetime.now()], and the
    log of every assignment to a task's [status], oldest first. *)
Record world : Type := mkWorld {
  coordinator : TaskCoordinator;
  now : Z;
  history : list (string * TaskStatus)
}.

Definition set_status (s : TaskStatus) (te : TaskExecution) : TaskExecution :=
  {| task_definition := task_definition te; status := s;
     start_time := start_time te; end_time := end_time te;
     result := result te; exec_error := exec_error te |}.

Definition set_start_time (t : Z) (te : TaskExecution) : TaskExecution :=
  {| task_definition := task_definition te; status := status te;
     start_time := Some t; end_time := end_time te;
     result := result te; exec_error := exec_error te |}.

Definition set_end_time (t : Z) (te : TaskExecution) : TaskExecution :=
  {| task_definition := task_definition te; status := status te;
     start_time := start_time te; end_time := Some t;
     result := result te; exec_error := exec_error te |}.

Definition set_result (r : AgentResult) (te : TaskExecution) : TaskExecution :=
  {| task_definition := task_definition te; status := status te;
     start_time := start_time te; end_time := end_time te;
     result := Some r; exec_error := exec_error te |}.

Definition set_error (e : option string) (te : TaskExecution) : TaskExecution :=
  {| task_definition := task_definition te; status := status te;
     start_time := start_time te; end_time := end_time te;
     result := result te; exec_error := e |}.

(** [status = FAILED; error = ...] *)
Definition fail_with (e : option string) (te : TaskExecution) : TaskExecution :=
  set_error e (set_status FAILED te).

(** [result.success = False; result.error = "Task result validation failed"] *)
Definition invalidate (r : AgentResult) : AgentResult :=
  {| success := false; data := data r;
     error := Some "Task result validation failed";
     result_status := result_status r |}.

(** The [try]/[except Exception] block of [execute_task], on a record that
    is already [RUNNING].  [task_exec.result] is the very object that the
    validation step mutates. *)
Definition run_body (task : BaseTask) (o : work_outcome) (te : TaskExecution)
    : TaskExecution :=
  match o with
  | PrerequisitesNotMet => fail_with (Some "Task prerequisites not met") te
  | Raises e => fail_with (Some (exn_str e)) te
  | Returns r =>
      if success r then
        match validate_result task r with
        | Ok true => set_status COMPLETED (set_result r te)
        | Ok false =>
            fail_with (error (invalidate r)) (set_result (invalidate r) te)
        | Raise e => fail_with (Some (exn_str e)) (set_result r te)
        end
      else fail_with (error r) (set_result r te)
  end.

Section Workflow.

Variable generated_id : TaskType -> string.

(** The outcome of each task's body in this run, by task id. *)
Variable work : string -> work_outcome.

Definition execute_task (task_id : string) (w : world) : res world :=
  match Dict.get task_id (tasks (coordinator w)) with
  | None => Raise (ValueError ("Task not found: " ++ task_id)%string)
  | Some task_exec =>
      match _create_task_instance generated_id (task_definition task_exec) with
      | Raise e => Raise e
      | Ok task =>
          let running := set_start_time (now w) (set_status RUNNING task_exec) in
          let settled := run_body task (work task_id) running in
          let final := set_end_time (now w + 1) settled in
          Ok {| coordinator :=
                  {| tasks := Dict.set task_id final (tasks (coordinator w));
                     execution_order := execution_order (coordinator w) |};
                now := now w + 2;
                history :=
                  history w ++ [(task_id, RUNNING); (task_id, status settled)] |}
      end
  end.

(** *** [_cancel_dependent_tasks] *)

Definition depends_on (failed_task_id : string) (te : TaskExecution) : bool :=
  bool_decide (failed_task_id ∈ dependencies (task_definition te)).

Definition cancel_if_dependent (failed_task_id : string)
    (kv : string * TaskExecution) : string * TaskExecution :=
  if depends_on failed_task_id (snd kv) && bool_decide (status (snd kv) = PENDING)
  then (fst kv, set_status CANCELLED (snd kv))
  else kv.

Definition cancelled_by (failed_task_id : string)
    (kv : string * TaskExecution) : list (string * TaskStatus) :=
  if depends_on failed_task_id (snd kv) && bool_decide (status (snd kv) = PENDING)
  then [(fst kv, CANCELLED)]
  else [].

Definition _cancel_dependent_tasks (failed_task_id : string) (w : world) : world :=
  {| coordinator :=
       {| tasks := map (cancel_if_dependent failed_task_id) (tasks (coordinator w));
          execution_order := execution_order (coordinator w) |};
     now := now w;
     history :=
       history w ++ flat_map (cancelled_by failed_task_id) (tasks (coordinator w)) |}.

(** *** [execute_workflow] *)

(** One level.  The pool's workers are serialised in submission order:
    every task of the level runs to its end, then the futures are read in
    the same order, and a future that raised cancels the dependents of its
    task.  A worker writes only its own record, and [execute_task] raises
    only before it writes anything. *)
Fixpoint submit_level (level_tasks : list string) (w : world)
    : world * list (string * option exn) :=
  match level_tasks with
  | [] => (w, [])
  | task_id :: rest =>
      match execute_task task_id w with
      | Ok w' =>
          let r := submit_level rest w' in (fst r, (task_id, None) :: snd r)
      | Raise e =>
          let r := submit_level rest w in (fst r, (task_id, Some e) :: snd r)
      end
  end.

Fixpoint gather_level (futures : list (string * option exn)) (w : world) : world :=
  match futures with
  | [] => w
  | (task_id, None) :: rest => gather_level rest w
  | (task_id, Some _) :: rest =>
      gather_level rest (_cancel_dependent_tasks task_id w)
  end.

Definition run_level (w : world) (level_tasks : list string) : world :=
  let r := submit_level level_tasks w in gather_level (snd r) (fst r).

(** [execute_workflow]: the outcome and the world it leaves.  An exception
    of [resolve_dependencies] propagates before any level is run. *)
Definition execute_workflow (w : world) : option (res unit * world) :=
  match resolve_dependencies (coordinator w) with
  | Some (Ok execution_levels, c) =>
      Some (Ok tt,
            foldl run_level
              {| coordinator := c; now := now w; history := history w |}
              execution_levels)
  | Some (Raise e, c) =>
      Some (Raise e,
            {| coordinator := c; now := now w; history := history w |})
  | None => None
  end.

End Workflow.

(** The task types [_create_task_instance] has a class for. *)
Definition supported (ty : TaskType) : bool :=
  match ty with
  | DATA_COLLECTION | RISK_ANALYSIS | DOCUMENTATION | REPORTING => true
  | VALIDATION | APPROVAL => false
  end.

(** The metadata keys whose value the constructor of the class
    dereferences. *)
Definition dereferenced (ty : TaskType) : list string :=
  match ty with
  | RISK_ANALYSIS => ["loan_details"]
  | DOCUMENTATION => ["loan_details"; "risk_assessment"]
  | REPORTING => ["risk_assessment"]
  | DATA_COLLECTION | VALIDATION | APPROVAL => []
  end.

(** The value under a key is a dictionary, or the key is absent. *)
Definition dict_or_absent (d : TaskDefinition) (key : string) : bool :=
  match metadata d !! key with
  | Some (MValue _) => false
  | Some (MDict _) | None => true
  end.

(** A task instance can be built from the definition: its type has a
    class, and the metadata values the constructor dereferences are
    dictionaries. *)
Definition constructible (d : TaskDefinition) : bool :=
  supported (task_type d)
  && forallb (dict_or_absent d) (dereferenced (task_type d)).

(** The run in which the body of task [id] does [o] instead. *)
Definition instead (id : string) (o : work_outcome)
    (work : string -> work_outcome) : string -> work_outcome :=
  fun i => if decide (i = id) then o else work i.

(** The registered definitions, by id: what a run never changes. *)
Definition definitions_of (w : world) : Dict.t TaskDefinition :=
  map (fun kv => (fst kv, task_definition (snd kv))) (tasks (coordinator w)).

(** ** The dependency relation *)

Section Graph.

Variable self_tasks : Dict.t TaskExecution.

(** [depends a b]: the registered task [a] lists [b] among its
    dependencies and [b] is registered too. *)
Definition depends (a b : string) : Prop :=
  exists te, Dict.get a self_tasks = Some te
             /\ b ∈ dependencies (task_definition te)
             /\ Dict.mem b self_tasks = true.

(** The relation has a cycle: some task reaches itself. *)
Definition cyclic : Prop := exists a, tc depends a a.

(** Invariants of the traversal.  A set of finished nodes is [closed]
    when it contains the registered dependencies of its members, and
    [acyclic_on] it when no member lies on a cycle. *)
Definition closed (V : gset string) : Prop :=
  forall a b, a ∈ V -> depends a b -> b ∈ V.

Definition acyclic_on (V : gset string) : Prop :=
  forall a, a ∈ V -> ~ tc depends a a.

(** What a call that returns does to the traversal state: the stack of
    nodes in progress is as before, [visited] only grows, and only by nodes
    that were not in progress. *)
Definition extends (st st' : dfs_state) : Prop :=
  temp_visited st' = temp_visited st
  /\ visited st ⊆ visited st'
  /\ (forall x, x ∈ visited st' -> x ∈ visited st \/ x ∉ temp_visited st)
  /\ (closed (visited st) -> acyclic_on (visited st) ->
      closed (visited st') /\ acyclic_on (visited st')).

(** The registered ids, as a set. *)
Definition registered : gset string := list_to_set (Dict.keys self_tasks).

End Graph.

(** ** Task sets without their unknown dependencies *)

Definition with_dependencies (deps : list string) (te : TaskExecution)
    : TaskExecution :=
  {| task_definition :=
       {| task_id := task_id (task_definition te);
          task_type := task_type (task_definition te);
          timeout := timeout (task_definition te);
          max_retries := max_retries (task_definition te);
          retry_delay := retry_delay (task_definition te);
          dependencies := deps;
          success_criteria := success_criteria (task_definition te);
          metadata := metadata (task_definition te) |};
     status := status te; start_time := start_time te;
     end_time := end_time te; result := result te;
     exec_error := exec_error te |}.

(** The dependencies of [te] that name a task registered in [ts]. *)
Definition known_dependencies (ts : Dict.t TaskExecution) (te : TaskExecution)
    : list string :=
  List.filter (fun d => Dict.mem d ts) (dependencies (task_definition te)).

(** [ts] with every dependency on an unregistered id removed. *)
Definition drop_unknown (ts : Dict.t TaskExecution) : Dict.t TaskExecution :=
  map (fun kv => (fst kv, with_dependencies (known_dependencies ts (snd kv)) (snd kv)))
      ts.

Definition without_unknown (self : TaskCoordinator) : TaskCoordinator :=
  {| tasks := drop_unknown (tasks self);
     execution_order := execution_order self |}.

(** ** [EnhancedCreditAgentOrchestrator.create_credit_workflow] *)

Definition create_credit_workflow (generated_id : TaskType -> string)
    (self : TaskCoordinator) : TaskCoordinator * list string :=
  let (c1, data_task_id) := add_task (DataCollectionTask generated_id) self in
  let (c2, risk_task_id) := add_task (RiskAnalysisTask generated_id) c1 in
  let (c3, doc_task_id) := add_task (DocumentationTask generated_id) c2 in
  let (c4, report_task_id) := add_task (ReportingTask generated_id) c3 in
  (c4, [data_task_id; risk_task_id; doc_task_id; report_task_id]).

(** ** Sample task sets and runs *)

(** [TaskDefinition(task_id, task_type, ..., dependencies=deps)] with the
    dataclass defaults. *)
Definition sample_definition (id : string) (ty : TaskType) (deps : list string)
    : TaskDefinition :=
  {| task_id := id; task_type := ty; timeout := 300; max_retries := 3;
     retry_delay := 30; dependencies := deps; success_criteria := [];
     metadata := ∅ |}.

(** A coordinator on which the listed tasks were added in order. *)
Definition register (l : list (string * TaskType * list string))
    : TaskCoordinator :=
  foldl (fun c x =>
           fst (add_task
                  {| definition :=
                       sample_definition (fst (fst x)) (snd (fst x)) (snd x) |}
                  c))
        new_coordinator l.

Definition start (c : TaskCoordinator) : world :=
  {| coordinator := c; now := 0; history := [] |}.

Definition sample_id (ty : TaskType) : string := "instance".

Definition succeeded : AgentResult :=
  {| success := true; data := Some ∅; error := None;
     result_status := AgentStatus.SUCCESS |}.

Definition failed_with (msg : string) : AgentResult :=
  {| success := false; data := None; error := Some msg;
     result_status := AgentStatus.FAILED |}.

(** [A] and [B] depend on each other. *)
Definition two_cycle : TaskCoordinator :=
  register [("A", DATA_COLLECTION, ["B"]); ("B", RISK_ANALYSIS, ["A"])].

(** [B] depends on [A]; [A] is added first. *)
Definition chain_AB : TaskCoordinator :=
  register [("A", DATA_COLLECTION, []); ("B", RISK_ANALYSIS, ["A"])].

(** The same two tasks, [B] added first. *)
Definition chain_BA : TaskCoordinator :=
  register [("B", RISK_ANALYSIS, ["A"]); ("A", DATA_COLLECTION, [])].

(** [A] has no dependency, [B] depends on [A] and [C] on [B]; added in
    the order [A], [C], [B]. *)
Definition chain_ACB : TaskCoordinator :=
  register [("A", DATA_COLLECTION, []); ("C", REPORTING, ["B"]);
            ("B", RISK_ANALYSIS, ["A"])].

(** The ids the task classes would compute for customer [C1] at time
    [1700000000]. *)
Definition credit_ids (ty : TaskType) : string :=
  match ty with
  | DATA_COLLECTION => "data_collection_C1_1700000000"
  | RISK_ANALYSIS => "risk_analysis_1700000000"
  | DOCUMENTATION => "documentation_1700000000"
  | REPORTING => "reporting_1700000000"
  | VALIDATION => "validation_1700000000"
  | APPROVAL => "approval_1700000000"
  end.

Definition credit_workflow : TaskCoordinator :=
  fst (create_credit_workflow credit_ids new_coordinator).

(** A body that fails for task [A] and succeeds for every other task. *)
Definition A_fails (id : string) : work_outcome :=
  if decide (id = "A") then Returns (failed_with "boom")
  else Returns succeeded.

Definition all_succeed (id : string) : work_outcome := Returns succeeded.

(** [AgentResult(success=False)]: a failure that carries no error. *)
Definition silent_failure : AgentResult :=
  {| success := false; data := None; error := None;
     result_status := AgentStatus.IDLE |}.

(** The status and the error recorded for a task. *)
Definition outcome_of (id : string) (w : world)
    : option (TaskStatus * option string * option Z) :=
  (fun te => (status te, exec_error te, end_time te))
    <$> Dict.get id (tasks (coordinator w)).

(** A successful result whose data has none of the keys that the data
    collection class checks. *)
Definition sources_only : AgentResult :=
  {| success := true; data := Some {[ "data_sources" := PInt 5 ]};
     error := None; result_status := AgentStatus.SUCCESS |}.

(** Two tasks submitted under the same id [A]. *)
Definition duplicate_first : BaseTask :=
  {| definition := sample_definition "A" DATA_COLLECTION [] |}.

Definition duplicate_second : BaseTask :=
  {| definition := sample_definition "A" REPORTING [] |}.

Definition duplicate_set : TaskCoordinator :=
  fst (add_task duplicate_second (fst (add_task duplicate_first new_coordinator))).

(** [AgentConfig(max_retries=3, retry_delay=1.0, retry_backoff=2.0)] and
    an agent that has not run yet. *)
Definition default_config : AgentConfig :=
  {| agent_max_retries := 3; agent_retry_delay := 1;
     agent_retry_backoff := 2; agent_timeout := 300 |}.

(** The interpreter on small numbers: a power within the range of a float
    raises nothing, and [time.sleep] on a length within the range of the
    clock refuses only a negative one. *)
Definition small_numbers : interpreter :=
  {| power_raises := fun _ _ => None;
     sleep_raises := fun seconds =>
       if Qlt_le_dec seconds 0
       then Some (ValueError "sleep length must be non-negative")
       else None |}.

(** An interpreter with the bounds of a 64-bit machine: a power of
    magnitude [2 ** 1024] or more overflows, and [time.sleep] also refuses
    a length of [2 ** 63] nanoseconds or more. *)
Definition bounded_numbers : interpreter :=
  {| power_raises := fun b k =>
       if Qle_bool (2 ^ 1024) (Qabs (b ^ Z.of_nat k))
       then Some (OverflowError "(34, 'Numerical result out of range')")
       else None;
     sleep_raises := fun seconds =>
       if Qlt_le_dec seconds 0
       then Some (ValueError "sleep length must be non-negative")
       else if Qle_bool (inject_Z (2 ^ 63) / inject_Z (10 ^ 9)) seconds
       then Some (OverflowError "timestamp too large to convert to C _PyTime_t")
       else None |}.

Definition idle_agent (c : AgentConfig) : agent :=
  {| config := c; agent_status := AgentStatus.IDLE; retry_count := 0;
     host := small_numbers; calls := [] |}.

(** The same agent on another interpreter. *)
Definition on_host (h : interpreter) (a : agent) : agent :=
  {| config := config a; agent_status := agent_status a;
     retry_count := retry_count a; host := h; calls := calls a |}.

(** Two configurations [__post_init__] accepts, with a large multiplier. *)
Definition huge_backoff : AgentConfig :=
  {| agent_max_retries := 3; agent_retry_delay := 1;
     agent_retry_backoff := 10 ^ 200; agent_timeout := 300 |}.

Definition overflowing_backoff : AgentConfig :=
  {| agent_max_retries := 3; agent_retry_delay := 1 / 10 ^ 300;
     agent_retry_backoff := 2 ^ 600; agent_timeout := 300 |}.

Definition always_fails (attempt : nat) : op_outcome :=
  OpReturns (failed_with "unavailable").

(** A configuration with a negative multiplier; [__post_init__] does not
    look at [retry_backoff]. *)
Definition negative_backoff : AgentConfig :=
  {| agent_max_retries := 3; agent_retry_delay := 1;
     agent_retry_backoff := -2; agent_timeout := 300 |}.

(** Scenario 1 of the specification: [A] and [B] without dependencies, [C]
    depending on both. *)
Definition scenario_1 : TaskCoordinator :=
  register [("A", DATA_COLLECTION, []); ("B", RISK_ANALYSIS, []);
            ("C", DOCUMENTATION, ["A"; "B"])].

(** A task of a type without a class. *)
Definition validation_only : TaskCoordinator :=
  register [("V", VALIDATION, [])].

(** A body that returns the failure without an error. *)
Definition fails_silently (id : string) : work_outcome :=
  Returns silent_failure.

(** A body that raises. *)
Definition crashes (id : string) : work_outcome :=
  Raises (Exception "agent crashed").

(** A risk analysis task registered with the metadata its class reads:
    the customer data and the loan details, both dictionaries.  It declares
    a success criterion of its own. *)
Definition risk_analysis_definition : TaskDefinition :=
  {| task_id := "R"; task_type := RISK_ANALYSIS; timeout := 300;
     max_retries := 3; retry_delay := 30; dependencies := [];
     success_criteria := [("approved", PBool true)];
     metadata :=
       {[ "customer_data" := MDict {[ "customer_id" := PStr "C-100" ]};
          "loan_details" :=
            MDict {[ "amount" := PInt 25000; "type" := PStr "personal" ]} ]} |}.

Definition lone_risk_analysis : TaskCoordinator :=
  fst (add_task {| definition := risk_analysis_definition |} new_coordinator).

(** A risk analysis task registered with its loan details as a string. *)
Definition malformed_definition : TaskDefinition :=
  {| task_id := "M"; task_type := RISK_ANALYSIS; timeout := 300;
     max_retries := 3; retry_delay := 30; dependencies := [];
     success_criteria := [];
     metadata := {[ "loan_details" := MValue (PStr "25000 personal") ]} |}.

Definition lone_malformed : TaskCoordinator :=
  fst (add_task {| definition := malformed_definition |} new_coordinator).

(** A result the body of [RiskAnalysisTask] returns as a success (a risk
    level, and a confidence of at least 0.7) and that fails the class
    criterion [risk_level = "defined"]. *)
Definition high_risk : AgentResult :=
  {| success := true;
     data := Some {[ "risk_level" := PStr "high";
                     "confidence_level" := PFloat (9 # 10) ]};
     error := None; result_status := AgentStatus.SUCCESS |}.

Definition analyst_finds_high_risk (id : string) : work_outcome :=
  Returns high_risk.

(** A result that meets the criteria of [RiskAnalysisTask] and fails the
    criterion [approved = True]. *)
Definition not_approved : AgentResult :=
  {| success := true;
     data := Some {[ "risk_level" := PStr "defined";
                     "confidence_level" := PFloat (7 # 10);
                     "approved" := PBool false ]};
     error := None; result_status := AgentStatus.SUCCESS |}.

Definition analyst_does_not_approve (id : string) : work_outcome :=
  Returns not_approved.

(** Two tasks of which one names an id that is not registered. *)
Definition unrelated_AB : TaskCoordinator :=
  register [("A", DATA_COLLECTION, []); ("B", RISK_ANALYSIS, ["data_collection"])].

(** ** [TaskCoordinator.get_workflow_status] *)

(** [status.value] *)
Definition status_value (s : TaskStatus) : string :=
  match s with
  | PENDING => "pending"
  | RUNNING => "running"
  | COMPLETED => "completed"
  | FAILED => "failed"
  | CANCELLED => "cancelled"
  | RETRYING => "retrying"
  end.

(** [for status in TaskStatus], in the order of the enumeration. *)
Definition all_statuses : list TaskStatus :=
  [PENDING; RUNNING; COMPLETED; FAILED; CANCELLED; RETRYING].

(** [counts[key] += 1]; every key used was set to 0 beforehand. *)
Definition increment (key : string) (counts : Dict.t Z) : Dict.t Z :=
  Dict.set key (default 0 (Dict.get key counts) + 1)%Z counts.

Record WorkflowStatus : Type := mkWorkflowStatus {
  total_tasks : Z;
  completed_tasks : Z;
  failed_tasks : Z;
  success_rate : Q;
  status_breakdown : Dict.t Z;
  reported_execution_order : list string
}.

Definition get_workflow_status (self : TaskCoordinator) : WorkflowStatus :=
  let zeroed :=
    foldl (fun counts s => Dict.set (status_value s) 0%Z counts) [] all_statuses in
  let status_counts :=
    foldl (fun counts kv => increment (status_value (status (snd kv))) counts)
          zeroed (tasks self) in
  let total := Z.of_nat (length (tasks self)) in
  let completed := default 0%Z (Dict.get (status_value COMPLETED) status_counts) in
  let failed := default 0%Z (Dict.get (status_value FAILED) status_counts) in
  {| total_tasks := total;
     completed_tasks := completed;
     failed_tasks := failed;
     success_rate :=
       if (0 <? total)%Z then (inject_Z completed / inject_Z total)%Q else 0%Q;
     status_breakdown := status_counts;
     reported_execution_order := execution_order self |}.

(** The coordinator after [execute_workflow] ran the tasks of [c]. *)
Definition finished (work : string -> work_outcome) (c : TaskCoordinator)
    : TaskCoordinator :=
  match execute_workflow sample_id work (start c) with
  | Some (_, w) => coordinator w
  | None => c
  end.

(** The number of registered tasks in status [s]. *)
Definition count_status (s : TaskStatus) (ts : Dict.t TaskExecution) : Z :=
  Z.of_nat (length (List.filter (fun kv => bool_decide (status (snd kv) = s)) ts)).

(** A data collection task whose criteria are listed in the other order,
    and a result with one criterion met and a key no criterion names. *)
Definition reordered_collection : BaseTask :=
  {| definition :=
       {| task_id := "reordered"; task_type := DATA_COLLECTION;
          timeout := 600; max_retries := 3; retry_delay := 30;
          dependencies := [];
          success_criteria :=
            [("collection_quality", PFloat (8 # 10));
             ("data_sources_count", PInt 3)];
          metadata := ∅ |} |}.

Definition three_sources : AgentResult :=
  {| success := true; data := Some {[ "data_sources_count" := PInt 3 ]};
     error := None; result_status := AgentStatus.SUCCESS |}.

Definition three_sources_and_more : AgentResult :=
  {| success := true;
     data := Some {[ "data_sources_count" := PInt 3; "elapsed" := PInt 12 ]};
     error := Some "note"; result_status := AgentStatus.IDLE |}.

(** The calls of a run of the retry loop that ends with attempt [j]:
    every earlier attempt is followed by its sleep. *)
Definition backoff_calls (c : AgentConfig) (j : nat) : list event :=
  flat_map (fun k => [Invoke k; Sleep (sleep_time c k)]) (seq 0 j) ++ [Invoke j].

(** The interpreter lets the loop pause after attempt [k]: the delay can be
    computed and [time.sleep] takes it. *)
Definition pause_allowed (a : agent) (k : nat) : Prop :=
  power_raises (host a) (agent_retry_backoff (config a)) k = None
  /\ sleep_raises (host a) (sleep_time (config a) k) = None.

(** The agent after attempt [k] failed and the loop slept. *)
Definition failed_attempt (k : nat) (a : agent) : agent :=
  log_call (Sleep (sleep_time (config a) k))
           (log_call (Invoke k) (begin_attempt k a)).

(** An operation that raises twice and then succeeds. *)
Definition third_time_lucky (attempt : nat) : op_outcome :=
  match attempt with
  | 0 | 1 => OpRaises (Exception "connection refused")
  | _ => OpReturns succeeded
  end.

(** An operation that raises at every attempt. *)
Definition always_raises (attempt : nat) : op_outcome :=
  OpRaises (Exception "connection refused").

(** ** [BaseAgent.run] *)

(** [DatabaseToolManager.health_check_all]: the two tools, whose checks
    report and never raise, and the overall entry. *)
Definition health_check_all (customer_ok market_ok : bool) : Dict.t bool :=
  [("customer_tool", customer_ok); ("market_tool", market_ok);
   ("overall", customer_ok && market_ok)].

Definition _pre_execute (customer_ok market_ok : bool) (a : agent)
    : bool * agent :=
  (forallb snd (health_check_all customer_ok market_ok),
   {| config := config a; agent_status := AgentStatus.RUNNING;
      retry_count := 0; host := host a; calls := calls a |}).

(** [_post_execute]: of its effects, the agent's status. *)
Definition _post_execute (r : AgentResult) (a : agent) : agent :=
  {| config := config a;
     agent_status :=
       if success r then AgentStatus.SUCCESS else AgentStatus.FAILED;
     retry_count := retry_count a; host := host a; calls := calls a |}.

Definition pre_execution_failed : AgentResult :=
  {| success := false; data := None;
     error := Some "Pre-execution checks failed";
     result_status := AgentStatus.FAILED |}.

(** [run]: the operation is the agent's [execute] on the given arguments. *)
Definition run (customer_ok market_ok : bool) (operation : nat -> op_outcome)
    (a : agent) : AgentResult * agent :=
  let (healthy, a1) := _pre_execute customer_ok market_ok a in
  if negb healthy then (pre_execution_failed, a1)
  else
    match _retry_operation operation a1 with
    | (Ok r, a2) => (r, _post_execute r a2)
    | (Raise e, a2) =>
        (_handle_error e "Agent execution",
         _post_execute (_handle_error e "Agent execution") a2)
    end.

(** ** [AgentOrchestrator.run_workflow] *)

(** A workflow step: [step.get('agent_id')] and
    [step.get('stop_on_failure', True)]. *)
Record workflow_step : Type := mkWorkflowStep {
  step_agent_id : option string;
  stop_on_failure : bool
}.

Definition agent_not_found (agent_id : string) : AgentResult :=
  {| success := false; data := None;
     error := Some ("Agent not found: " ++ agent_id)%string;
     result_status := AgentStatus.FAILED |}.

Section Orchestrator.

(** The ids under which agents are registered, and what the run of an
    agent returns at a given step of the workflow. *)
Variable agents : list string.
Variable agent_run : nat -> string -> AgentResult.

Definition run_agent (i : nat) (agent_id : string) : AgentResult :=
  if bool_decide (agent_id ∈ agents) then agent_run i agent_id
  else agent_not_found agent_id.

(** The loop of [run_workflow], from step number [i] on. *)
Fixpoint run_workflow_from (i : nat) (workflow : list workflow_step)
    : list AgentResult :=
  match workflow with
  | [] => []
  | step :: rest =>
      match step_agent_id step with
      | None => run_workflow_from (S i) rest
      | Some agent_id =>
          if bool_decide (agent_id = "") then run_workflow_from (S i) rest
          else
            let result := run_agent i agent_id in
            if negb (success result) && stop_on_failure step then [result]
            else result :: run_workflow_from (S i) rest
      end
  end.

Definition run_workflow (workflow : list workflow_step) : list AgentResult :=
  run_workflow_from 0 workflow.

End Orchestrator.

(** ** [CreditAgentOrchestrator.run_credit_workflow] *)

(** [len(v)] for the values of the model. *)
Definition py_len (v : pyval) : res Z :=
  match v with
  | PStr s => Ok (Z.of_nat (String.length s))
  | _ => Raise (TypeError "object has no len()")
  end.

(** [result.data.get(key)]: raises when [data] is [None]. *)
Definition data_get (r : AgentResult) (key : string) : res (option pyval) :=
  match data r with
  | Some d => Ok (d !! key)
  | None => Raise (Exception "'NoneType' object has no attribute 'get'")
  end.

(** [len(data_result.data.get('data_sources', [])) if data_result.success else 0] *)
Definition sources_summary (r : AgentResult) : res Z :=
  if success r then
    match data_get r "data_sources" with
    | Ok (Some v) => py_len v
    | Ok None => Ok 0%Z
    | Raise e => Raise e
    end
  else Ok 0%Z.

(** [result.data.get(key) if result.success else 'Unknown'] *)
Definition field_summary (r : AgentResult) (key : string) : res unit :=
  if success r then
    match data_get r key with
    | Ok _ => Ok tt
    | Raise e => Raise e
    end
  else Ok tt.

(** [workflow_results.get(key, AgentResult(success=False)).success] *)
Definition step_succeeded (key : string) (results : Dict.t AgentResult) : bool :=
  match Dict.get key results with
  | Some r => success r
  | None => false
  end.

Section CreditWorkflow.

(** For each of the four agents: [None] when it is not registered, and
    otherwise the result that its run returns in this workflow. *)
Variable data_agent risk_agent doc_agent report_agent : option AgentResult.

Definition data_collection_step (results : Dict.t AgentResult)
    : res (Dict.t AgentResult) :=
  match data_agent with
  | Some r =>
      match sources_summary r with
      | Ok _ => Ok (Dict.set "data_collection" r results)
      | Raise e => Raise e
      end
  | None => Ok results
  end.

Definition risk_analysis_step (results : Dict.t AgentResult)
    : res (Dict.t AgentResult) :=
  if step_succeeded "data_collection" results then
    match risk_agent with
    | Some r =>
        match field_summary r "risk_level" with
        | Ok _ => Ok (Dict.set "risk_analysis" r results)
        | Raise e => Raise e
        end
    | None => Ok results
    end
  else Ok results.

Definition documentation_step (results : Dict.t AgentResult)
    : res (Dict.t AgentResult) :=
  if step_succeeded "risk_analysis" results then
    match doc_agent with
    | Some r =>
        match field_summary r "compliance_status" with
        | Ok _ => Ok (Dict.set "documentation" r results)
        | Raise e => Raise e
        end
    | None => Ok results
    end
  else Ok results.

Definition reporting_step (results : Dict.t AgentResult)
    : res (Dict.t AgentResult) :=
  if step_succeeded "documentation" results
     && step_succeeded "risk_analysis" results then
    match report_agent with
    | Some r =>
        match field_summary r "report_type" with
        | Ok _ => Ok (Dict.set "reporting" r results)
        | Raise e => Raise e
        end
    | None => Ok results
    end
  else Ok results.

(** [run_credit_workflow]: the dictionary of results it returns. *)
Definition run_credit_workflow : res (Dict.t AgentResult) :=
  match data_collection_step [] with
  | Raise e => Raise e
  | Ok r1 =>
      match risk_analysis_step r1 with
      | Raise e => Raise e
      | Ok r2 =>
          match documentation_step r2 with
          | Raise e => Raise e
          | Ok r3 => reporting_step r3
          end
      end
  end.

End CreditWorkflow.

(** The steps of the credit workflow, in order. *)
Definition credit_steps : list string :=
  ["data_collection"; "risk_analysis"; "documentation"; "reporting"].

(** A workflow of three steps with the default [stop_on_failure], and the
    runs of its agents: the second fails. *)
Definition three_steps : list workflow_step :=
  [{| step_agent_id := Some "collector"; stop_on_failure := true |};
   {| step_agent_id := Some "analyst"; stop_on_failure := true |};
   {| step_agent_id := Some "reporter"; stop_on_failure := true |}].

Definition analyst_fails (i : nat) (agent_id : string) : AgentResult :=
  if decide (agent_id = "analyst") then failed_with "no data" else succeeded.

(** A data collection that succeeds, followed by a risk analysis that
    fails. *)
Definition collected : AgentResult :=
  {| success := true; data := Some {[ "data_sources" := PStr "abc" ]};
     error := None; result_status := AgentStatus.SUCCESS |}.

(** The malformed task [M], then [Z], which depends on [X], then [X],
    which depends on [M]. *)
Definition malformed_first : TaskCoordinator :=
  fst (add_task {| definition := sample_definition "X" DATA_COLLECTION ["M"] |}
         (fst (add_task
                 {| definition := sample_definition "Z" DATA_COLLECTION ["X"] |}
                 lone_malformed))).

(** The chain [A], [C], [B] after [B] was cancelled. *)
Definition chain_ACB_B_cancelled : world :=
  _cancel_dependent_tasks "A" (start chain_ACB).

(** ** Notions used by the further properties *)

(** The levels built so far hold exactly the finished nodes, each once,
    and every finished node is a registered task. *)
Definition levels_ok (ts : Dict.t TaskExecution) (st : dfs_state) : Prop :=
  NoDup (concat (execution_levels st))
  /\ (forall x, x ∈ concat (execution_levels st) <-> x ∈ visited st)
  /\ visited st ⊆ registered ts.

(** No task depends on a registered task. *)
Definition independent (ts : Dict.t TaskExecution) : Prop :=
  forall a b, ~ depends ts a b.

(** The traversal state after the tasks [p] were placed in level 0. *)
Definition placed_in_level_0 (p : list string) : dfs_state :=
  {| execution_levels := match p with [] => [] | _ => [p] end;
     visited := list_to_set p;
     temp_visited := ∅ |}.

(** The ids that were passed to [execute_task] and entered [RUNNING], in
    order, read off a log of status assignments. *)
Definition started (h : list (string * TaskStatus)) : list string :=
  map fst (List.filter (fun e => bool_decide (snd e = RUNNING)) h).

(** A record that has reached the end of [execute_task]. *)
Definition settled (te : TaskExecution) : Prop :=
  (status te = COMPLETED \/ status te = FAILED) /\ is_Some (end_time te).

Definition settled_in (w : world) (id : string) : Prop :=
  exists te, Dict.get id (tasks (coordinator w)) = Some te /\ settled te.

(** A task instance can be built for every registered task. *)
Definition all_constructible (w : world) : Prop :=
  forall id d, Dict.get id (definitions_of w) = Some d ->
               constructible d = true.

(** The names that the task classes use for their dependencies. *)
Definition class_dependency_names : list string :=
  ["data_collection"; "risk_analysis"; "documentation"].

(** * Properties *)

(** ** Dictionaries *)

Lemma dict_mem_get {V} (k : string) (d : Dict.t V) :
  Dict.mem k d = true <-> is_Some (Dict.get k d).
Proof.
  unfold Dict.mem. destruct (Dict.get k d); split; intros H; eauto.
  - discriminate.
  - by destruct H.
Qed.

Lemma dict_get_keys {V} (k : string) (d : Dict.t V) :
  is_Some (Dict.get k d) <-> k ∈ Dict.keys d.
Proof.
  induction d as [|[k' v] d IH]; simpl.
  - split; [intros [? ?]; discriminate | intros H; inversion H].
  - destruct (decide (k = k')) as [->|Hne].
    + split; [intros _; left | eauto].
    + rewrite IH. split; [intros H; by right | intros H].
      inversion H; subst; [done | assumption].
Qed.

Lemma dict_get_set_eq {V} (k : string) (v : V) (d : Dict.t V) :
  Dict.get k (Dict.set k v d) = Some v.
Proof.
  induction d as [|[k' v'] d IH]; simpl.
  - by rewrite decide_True.
  - destruct (decide (k = k')) as [->|Hne]; simpl.
    + by rewrite decide_True.
    + by rewrite decide_False.
Qed.

Lemma dict_get_set_ne {V} (k k0 : string) (v : V) (d : Dict.t V) :
  k0 <> k -> Dict.get k0 (Dict.set k v d) = Dict.get k0 d.
Proof.
  intros Hne. induction d as [|[k' v'] d IH]; simpl.
  - by rewrite decide_False.
  - destruct (decide (k = k')) as [->|Hne']; simpl.
    + by rewrite !decide_False.
    + destruct (decide (k0 = k')); [done | apply IH].
Qed.

Lemma dict_keys_set_mem {V} (k : string) (v : V) (d : Dict.t V) :
  k ∈ Dict.keys d -> Dict.keys (Dict.set k v d) = Dict.keys d.
Proof.
  induction d as [|[k' v'] d IH]; simpl; intros H.
  - inversion H.
  - destruct (decide (k = k')) as [->|Hne]; simpl; [done |].
    f_equal. apply IH. inversion H; subst; [done | assumption].
Qed.

Lemma dict_keys_set_fresh {V} (k : string) (v : V) (d : Dict.t V) :
  k ∉ Dict.keys d -> Dict.keys (Dict.set k v d) = Dict.keys d ++ [k].
Proof.
  induction d as [|[k' v'] d IH]; simpl; intros H; [done |].
  destruct (decide (k = k')) as [->|Hne]; simpl.
  - exfalso. apply H. left.
  - f_equal. apply IH. intros Hin. apply H. by right.
Qed.

Lemma dict_set_NoDup {V} (k : string) (v : V) (d : Dict.t V) :
  NoDup (Dict.keys d) -> NoDup (Dict.keys (Dict.set k v d)).
Proof.
  intros Hnd. destruct (decide (k ∈ Dict.keys d)) as [Hin|Hout].
  - by rewrite dict_keys_set_mem.
  - rewrite dict_keys_set_fresh by done.
    apply NoDup_app. split; [done |]. split.
    + intros x Hx Hk. apply list_elem_of_singleton in Hk. by subst.
    + apply NoDup_singleton.
Qed.

Lemma dependency_graph_get (ts : Dict.t TaskExecution) (node : string) :
  Dict.get node (dependency_graph ts)
  = (fun te => dependencies (task_definition te)) <$> Dict.get node ts.
Proof.
  induction ts as [|[k te] ts IH]; simpl; [done |].
  destruct (decide (node = k)); [done | apply IH].
Qed.

(** ** The traversal of [resolve_dependencies] *)

Section ResolveFacts.

Variable ts : Dict.t TaskExecution.

Lemma extends_refl (st : dfs_state) : extends ts st st.
Proof. repeat split; auto; tauto. Qed.

Lemma extends_trans (a b c : dfs_state) :
  extends ts a b -> extends ts b c -> extends ts a c.
Proof.
  intros (Ht1 & Hs1 & Hn1 & Hc1) (Ht2 & Hs2 & Hn2 & Hc2).
  split; [congruence |]. split; [by etrans |]. split.
  - intros x Hx. destruct (Hn2 x Hx) as [Hb|Hb].
    + by apply Hn1.
    + right. by rewrite <- Ht1.
  - intros Hcl Hac. destruct (Hc1 Hcl Hac). by apply Hc2.
Qed.

Lemma closed_reach (V : gset string) (a b : string) :
  closed ts V -> a ∈ V -> tc (depends ts) a b -> b ∈ V.
Proof.
  intros Hcl Ha Hab. induction Hab as [x y Hxy|x y z Hxy _ IH].
  - by apply (Hcl x).
  - apply IH. by apply (Hcl x).
Qed.

Lemma depends_registered_l (a b : string) :
  depends ts a b -> a ∈ registered ts.
Proof.
  intros (te & Hget & _). unfold registered.
  apply elem_of_list_to_set, dict_get_keys. eauto.
Qed.

Lemma mem_registered (a : string) :
  Dict.mem a ts = true <-> a ∈ registered ts.
Proof.
  unfold registered. rewrite elem_of_list_to_set, <- dict_get_keys.
  apply dict_mem_get.
Qed.

Lemma tc_depends_registered_l (a b : string) :
  tc (depends ts) a b -> a ∈ registered ts.
Proof. intros H. destruct H; eauto using depends_registered_l. Qed.

(** *** Loops whose body calls [extends] the state *)

Section Loops.

Variable body : string -> dfs_state -> option (res dfs_state).
Variable xs : list string.
Variable Q : string -> Prop.

Hypothesis body_ok :
  forall x s s', x ∈ xs -> body x s = Some (Ok s') ->
                 extends ts s s' /\ (Q x -> x ∈ visited s').

Lemma for_each_ok (st st' : dfs_state) :
  for_each body xs st = Some (Ok st') ->
  extends ts st st' /\ (forall x, x ∈ xs -> Q x -> x ∈ visited st').
Proof using body_ok.
  revert st body_ok. induction xs as [|x l IH]; intros st Hbody; simpl.
  - intros [= <-]. split; [apply extends_refl | intros x Hx; inversion Hx].
  - destruct (body x st) as [[s1|e]|] eqn:Hb; try discriminate.
    intros Hrest.
    destruct (Hbody x st s1 ltac:(left) Hb) as [Hext Hq].
    destruct (IH s1 ltac:(intros; eapply Hbody; eauto; by right) Hrest)
      as [Hext' Hall].
    split; [eapply extends_trans; eauto |].
    intros y Hy HQ. inversion Hy; subst; [| by apply Hall].
    destruct Hext' as (_ & Hsub & _). apply Hsub. by apply Hq.
Qed.

Lemma for_each_raise (st : dfs_state) (e : exn) :
  for_each body xs st = Some (Raise e) ->
  exists x s, x ∈ xs /\ extends ts st s /\ body x s = Some (Raise e).
Proof using body_ok.
  revert st body_ok. induction xs as [|x l IH]; intros st Hbody; simpl.
  - discriminate.
  - destruct (body x st) as [[s1|e1]|] eqn:Hb; try discriminate.
    + intros Hrest.
      destruct (Hbody x st s1 ltac:(left) Hb) as [Hext _].
      destruct (IH s1 ltac:(intros; eapply Hbody; eauto; by right) Hrest)
        as (y & s & Hy & Hext' & Hr).
      exists y, s. split; [by right |]. split; [| done].
      eapply extends_trans; eauto.
    + intros [= ->]. exists x, st. split; [left |].
      split; [apply extends_refl | done].
Qed.

Lemma for_each_is_Some (st : dfs_state) :
  (forall x s, x ∈ xs -> extends ts st s -> is_Some (body x s)) ->
  is_Some (for_each body xs st).
Proof using body_ok.
  revert st body_ok. induction xs as [|x l IH]; intros st Hbody Hsome; simpl.
  - eauto.
  - destruct (Hsome x st ltac:(left) (extends_refl st)) as [r Hb].
    rewrite Hb. destruct r as [s1|e]; [| eauto].
    destruct (Hbody x st s1 ltac:(left) Hb) as [Hext _].
    apply IH.
    + intros; eapply Hbody; eauto; by right.
    + intros y s Hy Hs. apply Hsome; [by right |].
      eapply extends_trans; eauto.
Qed.

End Loops.

(** *** A call of [dfs] that returns *)

Lemma dfs_ok (fuel : nat) :
  forall node level st st',
    dfs ts fuel node level st = Some (Ok st') ->
    extends ts st st' /\ node ∈ visited st'.
Proof.
  induction fuel as [|fuel IH]; intros node level st st'; simpl; [discriminate |].
  destruct (decide (node ∈ temp_visited st)) as [|Hnt]; [discriminate |].
  destruct (decide (node ∈ visited st)) as [Hv|Hnv].
  { intros [= <-]. split; [apply extends_refl | done]. }
  match goal with
  | |- context [for_each ?b ?l ?s] =>
      destruct (for_each b l s) as [[st2|e]|] eqn:Hloop; try discriminate
  end.
  intros [= <-].
  apply (for_each_ok _ _ (fun x => Dict.mem x ts = true)) in Hloop.
  2: { intros x s s' _. destruct (Dict.mem x ts).
       - intros Hd. destruct (IH _ _ _ _ Hd). by split.
       - intros [= <-]. split; [apply extends_refl | discriminate]. }
  destruct Hloop as [(Ht & Hsub & Hnew & Hinv) Hdeps]. simpl in *.
  split; [| set_solver].
  split; [simpl; rewrite Ht; set_solver |].
  split; [simpl; set_solver |].
  split; simpl.
  - intros x Hx. apply elem_of_union in Hx as [Hx|Hx].
    + apply elem_of_singleton in Hx as ->. by right.
    + destruct (Hnew x Hx) as [?|Hout]; [by left |]. right. set_solver.
  - intros Hcl Hac. destruct (Hinv Hcl Hac) as [Hcl2 Hac2].
    assert (Hsucc : forall b, depends ts node b -> b ∈ visited st2).
    { intros b (te & Hget & Hb & Hmem). apply Hdeps; [| done].
      rewrite dependency_graph_get, Hget. done. }
    split.
    + intros a b Ha Hab. apply elem_of_union in Ha as [Ha|Ha].
      * apply elem_of_singleton in Ha as ->.
        apply elem_of_union_r. by apply Hsucc.
      * apply elem_of_union_r. by apply (Hcl2 a).
    + intros a Ha Hcyc. apply elem_of_union in Ha as [Ha|Ha]; [| by apply (Hac2 a)].
      apply elem_of_singleton in Ha as ->.
      assert (Hin : node ∈ visited st2).
      { inversion Hcyc as [x y Hxy|x y z Hxy Hyz]; subst.
        - by apply Hsucc.
        - eapply closed_reach; [exact Hcl2 | apply Hsucc; exact Hxy | done]. }
      destruct (Hnew node Hin) as [?|Hout]; [done |]. set_solver.
Qed.

(** *** A call of [dfs] that raises: the node it names lies on a cycle *)

Lemma dfs_raise (fuel : nat) :
  forall node level st e,
    dfs ts fuel node level st = Some (Raise e) ->
    (forall t, t ∈ temp_visited st -> tc (depends ts) t node) ->
    exists x, e = circular x /\ tc (depends ts) x x.
Proof.
  induction fuel as [|fuel IH]; intros node level st e; simpl; [discriminate |].
  destruct (decide (node ∈ temp_visited st)) as [Ht|Hnt].
  { intros [= <-] Hstack. exists node. split; [done | by apply Hstack]. }
  destruct (decide (node ∈ visited st)) as [Hv|Hnv]; [discriminate |].
  match goal with
  | |- context [for_each ?b ?l ?s] =>
      destruct (for_each b l s) as [[st2|e2]|] eqn:Hloop; try discriminate
  end.
  intros [= ->] Hstack.
  apply (for_each_raise _ _ (fun _ => False)) in Hloop.
  2: { intros x s s' _. destruct (Dict.mem x ts).
       - intros Hd. destruct (dfs_ok _ _ _ _ _ Hd). by split.
       - intros [= <-]. split; [apply extends_refl | done]. }
  destruct Hloop as (d & s & Hd & (Ht & _) & Hcall). simpl in Ht.
  destruct (Dict.mem d ts) eqn:Hmem; [| discriminate].
  apply (IH _ _ _ _ Hcall). intros t Hin. rewrite Ht in Hin.
  assert (Hedge : depends ts node d).
  { rewrite dependency_graph_get in Hd.
    destruct (Dict.get node ts) as [te|] eqn:Hget; simpl in Hd.
    - by exists te.
    - inversion Hd. }
  apply elem_of_union in Hin as [Hin|Hin].
  - apply elem_of_singleton in Hin as ->. by apply tc_once.
  - eapply tc_r; [by apply Hstack | done].
Qed.

(** *** The recursion budget is never exhausted *)

Lemma dfs_is_Some (fuel : nat) :
  forall node level st,
    size (registered ts) < fuel + size (temp_visited st) ->
    temp_visited st ⊆ registered ts ->
    node ∈ registered ts ->
    is_Some (dfs ts fuel node level st).
Proof.
  induction fuel as [|fuel IH]; intros node level st Hfuel Hsub Hnode; simpl.
  { apply subseteq_size in Hsub. simpl in Hfuel. lia. }
  destruct (decide (node ∈ temp_visited st)) as [Ht|Hnt]; [eauto |].
  destruct (decide (node ∈ visited st)) as [Hv|Hnv]; [eauto |].
  match goal with
  | |- context [for_each ?b ?l ?s] =>
      assert (Hloop : is_Some (for_each b l s))
  end.
  { apply (for_each_is_Some _ _ (fun _ => False)).
    - intros x s s' _. destruct (Dict.mem x ts).
      + intros Hd. destruct (dfs_ok _ _ _ _ _ Hd). by split.
      + intros [= <-]. split; [apply extends_refl | done].
    - intros x s _ (Ht & _). simpl in Ht.
      destruct (Dict.mem x ts) eqn:Hmem; [| eauto].
      apply IH.
      + rewrite Ht, size_union by set_solver. rewrite size_singleton. lia.
      + rewrite Ht. set_solver.
      + by apply mem_registered. }
  destruct Hloop as [[st2|e] ->]; eauto.
Qed.

(** *** The loop over the registered tasks *)

Lemma size_registered : size (registered ts) <= length ts.
Proof.
  unfold registered, Dict.keys. rewrite <- (length_map fst ts).
  generalize (map fst ts) as l. intros l.
  induction l as [|x l IH].
  - rewrite list_to_set_nil, size_empty. simpl. lia.
  - rewrite list_to_set_cons, size_union_alt, size_singleton. simpl.
    assert (size (list_to_set l ∖ {[x]} : gset string)
            <= size (list_to_set l : gset string))
      by (apply subseteq_size; set_solver).
    lia.
Qed.

Lemma resolve_body_ok (x : string) (s s' : dfs_state) :
  (if decide (x ∈ visited s) then Some (Ok s) else dfs ts (dfs_fuel ts) x 0 s)
  = Some (Ok s') ->
  extends ts s s' /\ (True -> x ∈ visited s').
Proof.
  destruct (decide (x ∈ visited s)) as [Hv|Hnv].
  - intros [= <-]. split; [apply extends_refl | done].
  - intros Hd. destruct (dfs_ok _ _ _ _ _ Hd). by split.
Qed.

Lemma resolve_loop_ok (st : dfs_state) :
  resolve_loop ts (initial_state) = Some (Ok st) ->
  acyclic_on ts (visited st) /\ registered ts ⊆ visited st.
Proof.
  intros Hloop. unfold resolve_loop in Hloop.
  apply (for_each_ok _ _ (fun _ => True)) in Hloop.
  2: { intros x s s' _. apply resolve_body_ok. }
  destruct Hloop as [(_ & _ & _ & Hinv) Hall]. simpl in Hinv.
  destruct Hinv as [_ Hac]; [intros a b Ha; set_solver | intros a Ha; set_solver |].
  split; [done |]. intros x Hx. apply Hall; [| done].
  by apply elem_of_list_to_set in Hx.
Qed.

Lemma resolve_loop_raise (e : exn) :
  resolve_loop ts (initial_state) = Some (Raise e) ->
  exists x, e = circular x /\ tc (depends ts) x x.
Proof.
  intros Hloop. unfold resolve_loop in Hloop.
  apply (for_each_raise _ _ (fun _ => True)) in Hloop.
  2: { intros x s s' _. apply resolve_body_ok. }
  destruct Hloop as (x & s & _ & (Ht & _) & Hcall). simpl in Ht.
  destruct (decide (x ∈ visited s)); [discriminate |].
  apply (dfs_raise _ _ _ _ _ Hcall). intros t Hin. rewrite Ht in Hin. set_solver.
Qed.

Lemma resolve_loop_is_Some : is_Some (resolve_loop ts (initial_state)).
Proof.
  unfold resolve_loop. apply (for_each_is_Some _ _ (fun _ => True)).
  { intros x s s' _. apply resolve_body_ok. }
  intros x s Hx (Ht & _). unfold initial_state in Ht. simpl in Ht.
  destruct (decide (x ∈ visited s)); [eauto |].
  apply dfs_is_Some.
  - rewrite Ht, size_empty. unfold dfs_fuel. pose proof size_registered. lia.
  - rewrite Ht. set_solver.
  - unfold registered. by apply elem_of_list_to_set.
Qed.

(** [resolve_levels] always answers, and it raises exactly on the task
    sets whose dependency relation has a cycle. *)
Lemma resolve_levels_is_Some : is_Some (resolve_levels ts).
Proof.
  unfold resolve_levels. destruct resolve_loop_is_Some as [[st|e] ->]; eauto.
Qed.

Lemma resolve_levels_Ok_acyclic (levels : list (list string)) :
  resolve_levels ts = Some (Ok levels) -> ~ cyclic ts.
Proof.
  unfold resolve_levels.
  destruct (resolve_loop ts (initial_state)) as [[st|e]|] eqn:Hloop;
    try discriminate.
  intros _ [a Hcyc]. apply resolve_loop_ok in Hloop as [Hac Hreg].
  apply (Hac a); [| done]. apply Hreg. by eapply tc_depends_registered_l.
Qed.

Lemma resolve_levels_Raise_cyclic (e : exn) :
  resolve_levels ts = Some (Raise e) ->
  exists x, e = circular x /\ tc (depends ts) x x.
Proof.
  unfold resolve_levels.
  destruct (resolve_loop ts (initial_state)) as [[st|e']|] eqn:Hloop;
    try discriminate.
  intros [= <-]. by apply resolve_loop_raise.
Qed.

End ResolveFacts.

(** C6.  When the dependency relation among the registered tasks has a
    cycle, [resolve_dependencies] raises the circular-dependency
    [ValueError] naming a task that lies on a cycle, leaves the coordinator
    as it was (no levels, [execution_order] untouched), and
    [execute_workflow] raises the same error with the world unchanged: no
    task is run.  When the relation has no cycle, [resolve_dependencies]
    returns levels. *)
Theorem resolve_dependencies_detects_cycles
    (generated_id : TaskType -> string) (work : string -> work_outcome)
    (w : world) :
  (cyclic (tasks (coordinator w)) ->
   exists node,
     tc (depends (tasks (coordinator w))) node node
     /\ resolve_dependencies (coordinator w)
        = Some (Raise (circular node), coordinator w)
     /\ execute_workflow generated_id work w = Some (Raise (circular node), w))
  /\ (~ cyclic (tasks (coordinator w)) ->
      exists levels,
        resolve_dependencies (coordinator w)
        = Some (Ok levels,
                {| tasks := tasks (coordinator w);
                   execution_order := concat levels |})).
Proof.
  destruct w as [c t h]. simpl. unfold execute_workflow, resolve_dependencies.
  simpl.
  destruct (resolve_levels_is_Some (tasks c)) as [[levels|e] Hres]; rewrite Hres.
  - split.
    + intros Hcyc. by apply resolve_levels_Ok_acyclic in Hres.
    + intros _. by exists levels.
  - apply resolve_levels_Raise_cyclic in Hres as (x & -> & Hx). split.
    + intros _. by exists x.
    + intros Hac. exfalso. apply Hac. by exists x.
Qed.

Lemma resolve_dependencies_detects_cycles_witness :
  (exists node,
     tc (depends (tasks two_cycle)) node node
     /\ resolve_dependencies two_cycle = Some (Raise (circular node), two_cycle)
     /\ execute_workflow sample_id (fun _ => Returns succeeded) (start two_cycle)
        = Some (Raise (circular node), start two_cycle))
  /\ (exists levels,
        resolve_dependencies chain_AB
        = Some (Ok levels,
                {| tasks := tasks chain_AB; execution_order := concat levels |})).
Proof.
  split.
  - apply (proj1 (resolve_dependencies_detects_cycles
                    sample_id (fun _ => Returns succeeded) (start two_cycle))).
    exists "A". apply (tc_l _ "A" "B" "A"); [| apply tc_once].
    + eexists. split; [reflexivity |]. split; [| reflexivity]. simpl. left.
    + eexists. split; [reflexivity |]. split; [| reflexivity]. simpl. left.
  - apply (proj2 (resolve_dependencies_detects_cycles
                    sample_id (fun _ => Returns succeeded) (start chain_AB))).
    intros [a Hcyc].
    assert (Hedge : forall x y, depends (tasks chain_AB) x y -> x = "B" /\ y = "A").
    { intros x y (te & Hget & Hin & _). simpl in Hget.
      destruct (decide (x = "A")) as [->|_].
      - injection Hget as <-. simpl in Hin. inversion Hin.
      - destruct (decide (x = "B")) as [->|_]; [| discriminate].
        injection Hget as <-. simpl in Hin.
        apply list_elem_of_singleton in Hin. by subst. }
    inversion Hcyc as [x y Hxy|x y z Hxy Hyz]; subst.
    + destruct (Hedge _ _ Hxy) as [-> ?]. discriminate.
    + destruct (Hedge _ _ Hxy) as [-> ->].
      inversion Hyz as [x y Hxy'|x y z Hxy' _]; subst;
        destruct (Hedge _ _ Hxy') as [? _]; discriminate.
Defined.

(** ** [validate_result] *)

Lemma check_criteria_true_iff (criteria : Dict.t pyval) (d : gmap string pyval) :
  check_criteria criteria (Some d) = Ok true
  <-> (forall k expected v,
         (k, expected) ∈ criteria -> d !! k = Some v -> py_eqb v expected = true).
Proof.
  induction criteria as [|[k0 e0] criteria IH]; simpl.
  - split; [intros _ k e v H; inversion H | done].
  - destruct (d !! k0) as [v0|] eqn:Hk0.
    + unfold py_neb. destruct (py_eqb v0 e0) eqn:Heq; simpl.
      * rewrite IH. split.
        -- intros H k e v Hin Hd. inversion Hin; subst; [| eauto].
           rewrite Hk0 in Hd. by injection Hd as <-.
        -- intros H k e v Hin Hd. apply (H k e v); [by right | done].
      * split; [discriminate |]. intros H.
        rewrite (H k0 e0 v0) in Heq; [discriminate | left | done].
    + rewrite IH. split.
      * intros H k e v Hin Hd. inversion Hin; subst; [| eauto].
        rewrite Hk0 in Hd. discriminate.
      * intros H k e v Hin Hd. apply (H k e v); [by right | done].
Qed.

(** C10.  For a result with [success = True] whose data is a dictionary,
    [validate_result] returns [True] exactly when every success criterion
    whose key is present in the data holds a value equal ([==]) to the
    expected one; in particular it returns [True] when the data contains
    none of the criteria keys. *)
Theorem validate_result_absent_keys_pass
    (self : BaseTask) (r : AgentResult) (d : gmap string pyval) :
  success r = true ->
  data r = Some d ->
  ((forall k, k ∈ Dict.keys (success_criteria (definition self)) -> d !! k = None) ->
   validate_result self r = Ok true)
  /\ (validate_result self r = Ok true
      <-> forall k expected v,
            (k, expected) ∈ success_criteria (definition self) ->
            d !! k = Some v -> py_eqb v expected = true).
Proof.
  intros Hs Hd. unfold validate_result. rewrite Hs, Hd. simpl.
  split; [| apply check_criteria_true_iff].
  intros Habs. apply check_criteria_true_iff. intros k e v Hin Hv.
  rewrite Habs in Hv; [discriminate |].
  unfold Dict.keys. apply list_elem_of_fmap. by exists (k, e).
Qed.

Lemma validate_result_absent_keys_pass_witness :
  validate_result (DataCollectionTask credit_ids) sources_only = Ok true.
Proof.
  apply (proj1 (validate_result_absent_keys_pass
                  (DataCollectionTask credit_ids) sources_only
                  {[ "data_sources" := PInt 5 ]} eq_refl eq_refl)).
  intros k Hk. apply lookup_singleton_None. intros <-.
  revert Hk. unfold Dict.keys. simpl.
  rewrite !elem_of_cons, elem_of_nil.
  intros [H|[H|[]]]; discriminate.
Defined.

(** ** [add_task] *)

(** C7 (as the code has it).  [add_task] raises nothing.  It stores a fresh
    [PENDING] record for the task's definition under the task's id and
    returns that id; the records under other ids are untouched.  When the
    id is already registered the earlier record is replaced where it
    stands, so the task set keeps one entry per id. *)
Theorem add_task_replaces_duplicate (task : BaseTask) (self : TaskCoordinator) :
  let id := task_id (definition task) in
  snd (add_task task self) = id
  /\ Dict.get id (tasks (fst (add_task task self)))
     = Some (new_execution (definition task))
  /\ (forall k, k <> id ->
        Dict.get k (tasks (fst (add_task task self))) = Dict.get k (tasks self))
  /\ (id ∈ Dict.keys (tasks self) ->
      Dict.keys (tasks (fst (add_task task self))) = Dict.keys (tasks self))
  /\ (NoDup (Dict.keys (tasks self)) ->
      NoDup (Dict.keys (tasks (fst (add_task task self))))).
Proof.
  simpl. split; [done |]. split; [apply dict_get_set_eq |].
  split; [intros k Hk; by apply dict_get_set_ne |].
  split; [apply dict_keys_set_mem | apply dict_set_NoDup].
Qed.

Lemma add_task_replaces_duplicate_witness :
  Dict.keys (tasks (fst (add_task
                           {| definition := sample_definition "A" REPORTING ["B"] |}
                           chain_AB)))
  = Dict.keys (tasks chain_AB).
Proof.
  apply (proj1 (proj2 (proj2 (proj2
           (add_task_replaces_duplicate
              {| definition := sample_definition "A" REPORTING ["B"] |}
              chain_AB))))).
  simpl. left.
Defined.

(** C7 (as stated) fails: a second task with the id [A] is accepted, and
    the workflow then runs the replacement. *)
Lemma add_task_accepts_duplicate :
  tasks duplicate_set = [("A", new_execution (definition duplicate_second))]
  /\ exists w,
       execute_workflow sample_id all_succeed (start duplicate_set)
       = Some (Ok tt, w)
       /\ history w = [("A", RUNNING); ("A", COMPLETED)].
Proof.
  split; [reflexivity |]. eexists. split; reflexivity.
Qed.

(** ** [execute_task] *)

Lemma create_task_instance_constructible
    (generated_id : TaskType -> string) (d : TaskDefinition) :
  constructible d = true ->
  exists task, _create_task_instance generated_id d = Ok task.
Proof.
  unfold constructible, _create_task_instance, dict_argument, dict_or_absent.
  destruct (task_type d); simpl; try discriminate; eauto;
    repeat (destruct (metadata d !! _) as [[?|?]|]; simpl;
            try discriminate; eauto).
Qed.

Lemma create_task_instance_not_constructible
    (generated_id : TaskType -> string) (d : TaskDefinition) :
  constructible d = false ->
  exists msg,
    _create_task_instance generated_id d
    = Raise (if supported (task_type d) then AttributeError msg
             else ValueError msg).
Proof.
  unfold constructible, _create_task_instance, dict_argument, dict_or_absent.
  destruct (task_type d); simpl; try discriminate; eauto;
    repeat (destruct (metadata d !! _) as [[?|?]|]; simpl;
            try discriminate; eauto).
Qed.

Lemma run_body_settles (task : BaseTask) (o : work_outcome) (te : TaskExecution) :
  (status (run_body task o te) = COMPLETED \/ status (run_body task o te) = FAILED)
  /\ end_time (run_body task o te) = end_time te
  /\ task_definition (run_body task o te) = task_definition te
  /\ (status (run_body task o te) = FAILED ->
      is_Some (exec_error (run_body task o te))
      \/ exists r, o = Returns r /\ success r = false /\ error r = None
                   /\ exec_error (run_body task o te) = None).
Proof.
  destruct o as [|r|e]; simpl; try (repeat split; eauto; fail).
  destruct (success r) eqn:Hs.
  - destruct (validate_result task r) as [[|]|e]; simpl;
      repeat split; eauto; discriminate.
  - simpl. repeat split; eauto. intros _.
    destruct (error r) eqn:He; [left; eauto | right; exists r; eauto].
Qed.

(** C9 (as the code has it).  [execute_task] first builds a task instance
    from the registered definition, outside its [try].  When that succeeds
    (the type has a class, and the metadata values the constructor
    dereferences are dictionaries), [execute_task] returns, and the task's
    record is then [COMPLETED] or [FAILED] with [end_time] set, whatever the
    body did (also when it raised).  A [FAILED] record carries an error,
    except when the body returned an unsuccessful result that itself has no
    error: the record's error is a copy of the result's.  When the instance
    cannot be built, [execute_task] raises instead, before it writes to the
    record: a [ValueError] for a type without a class, the constructor's
    [AttributeError] otherwise. *)
Theorem execute_task_settles
    (generated_id : TaskType -> string) (work : string -> work_outcome)
    (id : string) (w : world) (te : TaskExecution) :
  Dict.get id (tasks (coordinator w)) = Some te ->
  (constructible (task_definition te) = true ->
   exists w' te',
     execute_task generated_id work id w = Ok w'
     /\ Dict.get id (tasks (coordinator w')) = Some te'
     /\ (status te' = COMPLETED \/ status te' = FAILED)
     /\ end_time te' = Some (now w + 1)%Z
     /\ (status te' = FAILED ->
         is_Some (exec_error te')
         \/ exists r, work id = Returns r /\ success r = false /\ error r = None
                      /\ exec_error te' = None))
  /\ (constructible (task_definition te) = false ->
      exists msg,
        execute_task generated_id work id w
        = Raise (if supported (task_type (task_definition te))
                 then AttributeError msg else ValueError msg)).
Proof.
  intros Hget. unfold execute_task. rewrite Hget. split.
  - intros Hsup.
    destruct (create_task_instance_constructible generated_id _ Hsup) as [task ->].
    eexists. eexists. split; [reflexivity |]. simpl.
    split; [apply dict_get_set_eq |].
    match goal with
    | |- context [run_body ?t ?o ?r] =>
        destruct (run_body_settles t o r) as (Hst & _ & _ & Herr)
    end.
    simpl. split; [exact Hst |]. split; [done |]. exact Herr.
  - intros Hno.
    destruct (create_task_instance_not_constructible generated_id _ Hno)
      as [msg ->].
    by exists msg.
Qed.

Lemma execute_task_settles_witness :
  (exists w' te',
     execute_task sample_id crashes "R" (start lone_risk_analysis) = Ok w'
     /\ Dict.get "R" (tasks (coordinator w')) = Some te'
     /\ (status te' = COMPLETED \/ status te' = FAILED)
     /\ end_time te' = Some 1%Z
     /\ (status te' = FAILED ->
         is_Some (exec_error te')
         \/ exists r, crashes "R" = Returns r
                      /\ success r = false /\ error r = None
                      /\ exec_error te' = None))
  /\ (exists msg,
        execute_task sample_id crashes "V" (start validation_only)
        = Raise (ValueError msg))
  /\ exists msg,
       execute_task sample_id crashes "M" (start lone_malformed)
       = Raise (AttributeError msg).
Proof.
  split; [| split].
  - apply (proj1 (execute_task_settles sample_id crashes "R"
                    (start lone_risk_analysis)
                    (new_execution risk_analysis_definition)
                    eq_refl)).
    reflexivity.
  - apply (proj2 (execute_task_settles sample_id crashes "V"
                    (start validation_only)
                    (new_execution (sample_definition "V" VALIDATION []))
                    eq_refl)).
    reflexivity.
  - apply (proj2 (execute_task_settles sample_id crashes "M"
                    (start lone_malformed)
                    (new_execution malformed_definition)
                    eq_refl)).
    reflexivity.
Defined.

(** C9 (as stated) fails.  A body that returns [AgentResult(success=False)]
    leaves the record [FAILED] with no error; and [execute_task] raises
    before it touches the record, which stays [PENDING] without an
    [end_time], for a task of a type without a class and for a task whose
    metadata holds the loan details as a string. *)
Lemma execute_task_failed_without_error :
  (exists w',
     execute_task sample_id fails_silently "R" (start lone_risk_analysis)
     = Ok w'
     /\ outcome_of "R" w' = Some (FAILED, None, Some 1%Z))
  /\ execute_task sample_id all_succeed "V" (start validation_only)
     = Raise (ValueError "Unknown task type: TaskType.VALIDATION")
  /\ outcome_of "V" (start validation_only) = Some (PENDING, None, None)
  /\ execute_task sample_id all_succeed "M" (start lone_malformed)
     = Raise (AttributeError "'str' object has no attribute 'get'")
  /\ outcome_of "M" (start lone_malformed) = Some (PENDING, None, None).
Proof.
  split; [eexists; split; reflexivity |]. repeat split.
Qed.

(** ** A result that fails validation *)

Lemma dict_set_same_image {V W} (f : V -> W) (k : string) (v v' : V)
    (d : Dict.t V) :
  Dict.get k d = Some v -> f v' = f v ->
  map (fun kv => (fst kv, f (snd kv))) (Dict.set k v' d)
  = map (fun kv => (fst kv, f (snd kv))) d.
Proof.
  intros Hget Hf. induction d as [|[k0 v0] d IH]; simpl in *; [discriminate |].
  destruct (decide (k = k0)) as [->|Hne]; simpl.
  - injection Hget as ->. by rewrite Hf.
  - f_equal. by apply IH.
Qed.

Lemma definitions_of_get (id : string) (w : world) :
  Dict.get id (definitions_of w)
  = task_definition <$> Dict.get id (tasks (coordinator w)).
Proof.
  unfold definitions_of. induction (tasks (coordinator w)) as [|[k te] l IH];
    simpl; [done |].
  destruct (decide (id = k)); [done | apply IH].
Qed.

Section Definitions_kept.

Variable generated_id : TaskType -> string.
Variable work : string -> work_outcome.

Lemma execute_task_definitions (id : string) (w w' : world) :
  execute_task generated_id work id w = Ok w' ->
  definitions_of w' = definitions_of w.
Proof.
  unfold execute_task.
  destruct (Dict.get id (tasks (coordinator w))) as [te|] eqn:Hget;
    [| discriminate].
  destruct (_create_task_instance generated_id (task_definition te)) as [task|e];
    [| discriminate].
  intros [= <-]. unfold definitions_of. simpl.
  apply (dict_set_same_image task_definition _ te); [done |].
  simpl. by destruct (run_body_settles task (work id)
                        (set_start_time (now w) (set_status RUNNING te)))
    as (_ & _ & -> & _).
Qed.

Lemma submit_level_definitions (l : list string) (w : world) :
  definitions_of (fst (submit_level generated_id work l w)) = definitions_of w.
Proof.
  revert w. induction l as [|id l IH]; intros w; simpl; [done |].
  destruct (execute_task generated_id work id w) as [w'|e] eqn:Hex; simpl.
  - rewrite IH. by eapply execute_task_definitions.
  - apply IH.
Qed.

Lemma cancel_dependent_tasks_definitions (id : string) (w : world) :
  definitions_of (_cancel_dependent_tasks id w) = definitions_of w.
Proof.
  unfold definitions_of, _cancel_dependent_tasks. simpl.
  rewrite map_map. apply map_ext. intros [k te]. unfold cancel_if_dependent.
  simpl. by destruct (_ && _).
Qed.

Lemma gather_level_definitions (futures : list (string * option exn)) (w : world) :
  definitions_of (gather_level futures w) = definitions_of w.
Proof.
  revert w. induction futures as [|[id [e|]] l IH]; intros w; simpl; [done | |].
  - rewrite IH. apply cancel_dependent_tasks_definitions.
  - apply IH.
Qed.

Lemma run_level_definitions (l : list string) (w : world) :
  definitions_of (run_level generated_id work w l) = definitions_of w.
Proof.
  unfold run_level. rewrite gather_level_definitions.
  apply submit_level_definitions.
Qed.

End Definitions_kept.

Section Validation_failure.

Variable generated_id : TaskType -> string.
Variable work : string -> work_outcome.
Variable id : string.
Variable d : TaskDefinition.
Variable task : BaseTask.
Variable r : AgentResult.

Hypothesis instance_of_d : _create_task_instance generated_id d = Ok task.
Hypothesis body_returns : work id = Returns r.
Hypothesis reports_success : success r = true.
Hypothesis criteria_fail : validate_result task r = Ok false.

Let reported := instead id (Returns (invalidate r)) work.

Lemma run_body_invalidated (te : TaskExecution) :
  run_body task (Returns r) te = run_body task (Returns (invalidate r)) te.
Proof using reports_success criteria_fail.
  simpl. by rewrite reports_success, criteria_fail.
Qed.

Lemma execute_task_reported (i : string) (w : world) :
  Dict.get id (definitions_of w) = Some d ->
  execute_task generated_id work i w = execute_task generated_id reported i w.
Proof using instance_of_d body_returns reports_success criteria_fail.
  intros Hd. unfold execute_task, reported, instead.
  destruct (decide (i = id)) as [->|Hne]; [| done].
  rewrite definitions_of_get in Hd.
  destruct (Dict.get id (tasks (coordinator w))) as [te|]; [| done].
  injection Hd as ->. rewrite instance_of_d, body_returns.
  by rewrite run_body_invalidated.
Qed.

Lemma submit_level_reported (l : list string) (w : world) :
  Dict.get id (definitions_of w) = Some d ->
  submit_level generated_id work l w = submit_level generated_id reported l w.
Proof using instance_of_d body_returns reports_success criteria_fail.
  revert w. induction l as [|i l IH]; intros w Hd; simpl; [done |].
  rewrite <- (execute_task_reported i w Hd).
  destruct (execute_task generated_id work i w) as [w'|e] eqn:Hex.
  - rewrite IH; [done |].
    by rewrite (execute_task_definitions _ _ _ _ _ Hex).
  - by rewrite IH.
Qed.

Lemma run_levels_reported (levels : list (list string)) (w : world) :
  Dict.get id (definitions_of w) = Some d ->
  foldl (run_level generated_id work) w levels
  = foldl (run_level generated_id reported) w levels.
Proof using instance_of_d body_returns reports_success criteria_fail.
  revert w. induction levels as [|l levels IH]; intros w Hd; simpl; [done |].
  assert (Hstep : run_level generated_id work w l
                  = run_level generated_id reported w l).
  { unfold run_level. by rewrite (submit_level_reported l w Hd). }
  rewrite <- Hstep. apply IH. by rewrite run_level_definitions.
Qed.

End Validation_failure.

(** C5 (as the code has it).  [execute_task] validates a result against
    the task instance that [_create_task_instance] builds anew for the type
    of the task, that is, against the success criteria written in the
    constructor of the task class, not against the [success_criteria] of
    the registered definition.  When the body of a task returns a result
    with [success = True] that [validate_result] of this instance rejects,
    [execute_task] clears the result's success flag, records
    ["Task result validation failed"] in the result and in the task's
    record, and leaves the task [FAILED].  The call, and the whole workflow
    run, are then exactly what they are when the body itself returns that
    unsuccessful result. *)
Theorem failed_validation_is_failure
    (generated_id : TaskType -> string) (work : string -> work_outcome)
    (id : string) (w : world) (te : TaskExecution) (task : BaseTask)
    (r : AgentResult) :
  Dict.get id (tasks (coordinator w)) = Some te ->
  _create_task_instance generated_id (task_definition te) = Ok task ->
  work id = Returns r ->
  success r = true ->
  validate_result task r = Ok false ->
  (exists w' te',
     execute_task generated_id work id w = Ok w'
     /\ Dict.get id (tasks (coordinator w')) = Some te'
     /\ status te' = FAILED
     /\ result te' = Some (invalidate r)
     /\ success (invalidate r) = false
     /\ exec_error te' = Some "Task result validation failed")
  /\ execute_task generated_id work id w
     = execute_task generated_id (instead id (Returns (invalidate r)) work) id w
  /\ execute_workflow generated_id work w
     = execute_workflow generated_id (instead id (Returns (invalidate r)) work) w.
Proof.
  intros Hget Hinst Hbody Hs Hv.
  assert (Hd : Dict.get id (definitions_of w) = Some (task_definition te))
    by (by rewrite definitions_of_get, Hget).
  split; [| split].
  - unfold execute_task. rewrite Hget, Hinst, Hbody. simpl. rewrite Hs, Hv.
    eexists. eexists. split; [reflexivity |]. simpl.
    split; [apply dict_get_set_eq |]. done.
  - by eapply execute_task_reported.
  - unfold execute_workflow.
    destruct (resolve_dependencies (coordinator w)) as [[[levels|e] c]|] eqn:Hres;
      [| done | done].
    do 2 f_equal. eapply run_levels_reported; eauto.
    unfold resolve_dependencies in Hres.
    destruct (resolve_levels (tasks (coordinator w))) as [[lv|e]|];
      [| discriminate | discriminate].
    injection Hres as _ <-. exact Hd.
Qed.

Lemma failed_validation_is_failure_witness :
  (exists w' te',
     execute_task sample_id analyst_finds_high_risk "R" (start lone_risk_analysis)
     = Ok w'
     /\ Dict.get "R" (tasks (coordinator w')) = Some te'
     /\ status te' = FAILED
     /\ result te' = Some (invalidate high_risk)
     /\ success (invalidate high_risk) = false
     /\ exec_error te' = Some "Task result validation failed")
  /\ execute_task sample_id analyst_finds_high_risk "R" (start lone_risk_analysis)
     = execute_task sample_id
         (instead "R" (Returns (invalidate high_risk)) analyst_finds_high_risk)
         "R" (start lone_risk_analysis)
  /\ execute_workflow sample_id analyst_finds_high_risk (start lone_risk_analysis)
     = execute_workflow sample_id
         (instead "R" (Returns (invalidate high_risk)) analyst_finds_high_risk)
         (start lone_risk_analysis).
Proof.
  apply (failed_validation_is_failure sample_id analyst_finds_high_risk "R"
           (start lone_risk_analysis)
           (new_execution risk_analysis_definition)
           (RiskAnalysisTask sample_id) high_risk);
    reflexivity.
Defined.

(** C5 (as stated) fails.  The risk analysis task [R] is registered with a
    success criterion of its own, [approved = True].  Its body returns a
    successful result with [approved = False], which fails that criterion,
    and meets the two criteria of the class.  [execute_task] never reads the
    registered criterion: the task ends [COMPLETED], with no error, and the
    stored result is still flagged successful. *)
Lemma registered_criteria_not_checked :
  Dict.get "R" (tasks (coordinator (start lone_risk_analysis)))
  = Some (new_execution risk_analysis_definition)
  /\ success not_approved = true
  /\ validate_result {| definition := risk_analysis_definition |} not_approved
     = Ok false
  /\ _create_task_instance sample_id risk_analysis_definition
     = Ok (RiskAnalysisTask sample_id)
  /\ validate_result (RiskAnalysisTask sample_id) not_approved = Ok true
  /\ exists w',
       execute_task sample_id analyst_does_not_approve "R"
         (start lone_risk_analysis)
       = Ok w'
       /\ outcome_of "R" w' = Some (COMPLETED, None, Some 1%Z)
       /\ (result <$> Dict.get "R" (tasks (coordinator w')))
          = Some (Some not_approved).
Proof.
  do 5 (split; [reflexivity |]). eexists. repeat split.
Qed.

(** ** Dependencies on unregistered ids *)

Lemma for_each_ext {A S} (f g : A -> S -> option (res S)) (l : list A) (s : S) :
  (forall x t, f x t = g x t) -> for_each f l s = for_each g l s.
Proof.
  intros Hfg. revert s. induction l as [|x l IH]; intros s; simpl; [done |].
  rewrite Hfg. destruct (g x s) as [[s'|e]|]; [apply IH | done | done].
Qed.

Lemma for_each_filter {A S} (p : A -> bool) (f : A -> S -> option (res S))
    (l : list A) (s : S) :
  (forall x t, p x = false -> f x t = Some (Ok t)) ->
  for_each f (List.filter p l) s = for_each f l s.
Proof.
  intros Hskip. revert s. induction l as [|x l IH]; intros s; simpl; [done |].
  destruct (p x) eqn:Hp; simpl.
  - destruct (f x s) as [[s'|e]|]; [apply IH | done | done].
  - rewrite (Hskip x s Hp). apply IH.
Qed.

Section Drop_unknown.

Variable ts : Dict.t TaskExecution.

Lemma drop_unknown_get_with (us : Dict.t TaskExecution) (k : string) :
  Dict.get k
    (map (fun kv => (fst kv, with_dependencies (known_dependencies ts (snd kv)) (snd kv)))
         us)
  = (fun te => with_dependencies (known_dependencies ts te) te) <$> Dict.get k us.
Proof.
  induction us as [|[k0 te] us IH]; simpl; [done |].
  destruct (decide (k = k0)); [done | apply IH].
Qed.

Lemma drop_unknown_get (k : string) :
  Dict.get k (drop_unknown ts)
  = (fun te => with_dependencies (known_dependencies ts te) te) <$> Dict.get k ts.
Proof. apply drop_unknown_get_with. Qed.

Lemma drop_unknown_mem (k : string) :
  Dict.mem k (drop_unknown ts) = Dict.mem k ts.
Proof.
  unfold Dict.mem. rewrite drop_unknown_get. by destruct (Dict.get k ts).
Qed.

Lemma drop_unknown_keys : Dict.keys (drop_unknown ts) = Dict.keys ts.
Proof.
  unfold drop_unknown, Dict.keys. rewrite map_map. by apply map_ext.
Qed.

Lemma drop_unknown_graph (node : string) :
  default [] (Dict.get node (dependency_graph (drop_unknown ts)))
  = List.filter (fun d => Dict.mem d ts)
      (default [] (Dict.get node (dependency_graph ts))).
Proof.
  rewrite !dependency_graph_get, drop_unknown_get.
  by destruct (Dict.get node ts).
Qed.

Lemma dfs_drop_unknown (fuel : nat) :
  forall node level st,
    dfs (drop_unknown ts) fuel node level st = dfs ts fuel node level st.
Proof.
  induction fuel as [|fuel IH]; intros node level st; simpl; [done |].
  destruct (decide (node ∈ temp_visited st)); [done |].
  destruct (decide (node ∈ visited st)); [done |].
  rewrite drop_unknown_graph.
  rewrite (for_each_ext _
             (fun dep s =>
                if Dict.mem dep ts then dfs ts fuel dep (S level) s
                else Some (Ok s))).
  2: { intros x t. rewrite drop_unknown_mem. by rewrite IH. }
  rewrite for_each_filter; [done |]. intros x t Hx. by rewrite Hx.
Qed.

Lemma resolve_levels_drop_unknown :
  resolve_levels (drop_unknown ts) = resolve_levels ts.
Proof.
  unfold resolve_levels, resolve_loop. rewrite drop_unknown_keys.
  rewrite (for_each_ext _
             (fun task_id s =>
                if decide (task_id ∈ visited s) then Some (Ok s)
                else dfs ts (dfs_fuel ts) task_id 0 s)); [done |].
  intros x t. destruct (decide (x ∈ visited t)); [done |].
  rewrite dfs_drop_unknown. unfold dfs_fuel, drop_unknown.
  by rewrite length_map.
Qed.

End Drop_unknown.

(** C8 (as the code has it).  A dependency that names no registered task
    is ignored: [resolve_dependencies] answers on a task set exactly as it
    does on the same set with those entries removed, and the only error it
    ever raises is the circular-dependency one, for a cycle among registered
    tasks. *)
Theorem unknown_dependencies_ignored (self : TaskCoordinator) :
  fst <$> resolve_dependencies (without_unknown self)
  = fst <$> resolve_dependencies self
  /\ (forall e c,
        resolve_dependencies self = Some (Raise e, c) ->
        exists node, e = circular node /\ tc (depends (tasks self)) node node).
Proof.
  split.
  - unfold resolve_dependencies, without_unknown. simpl.
    rewrite resolve_levels_drop_unknown.
    by destruct (resolve_levels (tasks self)) as [[levels|e]|].
  - intros e c. unfold resolve_dependencies.
    destruct (resolve_levels (tasks self)) as [[levels|e']|] eqn:Hres;
      try discriminate.
    intros [= <- _]. by apply resolve_levels_Raise_cyclic.
Qed.

Lemma unknown_dependencies_ignored_witness :
  fst <$> resolve_dependencies (without_unknown credit_workflow)
  = fst <$> resolve_dependencies credit_workflow
  /\ exists node,
       circular "A" = circular node /\ tc (depends (tasks two_cycle)) node node.
Proof.
  split.
  - exact (proj1 (unknown_dependencies_ignored credit_workflow)).
  - apply (proj2 (unknown_dependencies_ignored two_cycle) (circular "A") two_cycle).
    reflexivity.
Defined.

(** C8 (as stated) fails.  In the workflow that the orchestrator builds, the
    risk analysis task depends on [data_collection], which is the id of no
    task; [resolve_dependencies] raises nothing and puts all four tasks in
    one level, and the workflow runs them. *)
Lemma unknown_dependency_accepted :
  dependencies (definition (RiskAnalysisTask credit_ids)) = ["data_collection"]
  /\ Dict.mem "data_collection" (tasks credit_workflow) = false
  /\ fst <$> resolve_dependencies credit_workflow
     = Some (Ok [["data_collection_C1_1700000000"; "risk_analysis_1700000000";
                  "documentation_1700000000"; "reporting_1700000000"]])
  /\ exists w,
       execute_workflow credit_ids all_succeed (start credit_workflow)
       = Some (Ok tt, w)
       /\ history w
          = [("data_collection_C1_1700000000", RUNNING);
             ("data_collection_C1_1700000000", COMPLETED);
             ("risk_analysis_1700000000", RUNNING);
             ("risk_analysis_1700000000", COMPLETED);
             ("documentation_1700000000", RUNNING);
             ("documentation_1700000000", COMPLETED);
             ("reporting_1700000000", RUNNING);
             ("reporting_1700000000", COMPLETED)].
Proof.
  split; [reflexivity |]. split; [reflexivity |]. split; [reflexivity |].
  eexists. split; reflexivity.
Qed.

(** ** [_retry_operation] *)

Section RetryFacts.

Variable operation : nat -> op_outcome.

(** What one turn of the loop adds to the log, by the way it ends. *)
Lemma attempt_once_spec (k : nat) (a : agent) :
  let c := config a in
  let h := host a in
  let d := sleep_time c k in
  let out := fst (attempt_once operation k a) in
  let a' := snd (attempt_once operation k a) in
  config a' = c /\ host a' = h
  /\ exists tail,
       calls a' = calls a ++ Invoke k :: tail
       /\ ((out = Ok None /\ op_failed (operation k) = true
            /\ (((Z.of_nat k < agent_max_retries c)%Z
                 /\ power_raises h (agent_retry_backoff c) k = None
                 /\ sleep_raises h d = None /\ tail = [Sleep d])
                \/ (~ (Z.of_nat k < agent_max_retries c)%Z /\ tail = [])))
           \/ ((exists r, out = Ok (Some r)) /\ tail = []
               /\ (op_failed (operation k) = false
                   \/ ~ (Z.of_nat k < agent_max_retries c)%Z))
           \/ (exists e,
                 out = Raise e /\ op_failed (operation k) = true
                 /\ (Z.of_nat k < agent_max_retries c)%Z
                 /\ ((power_raises h (agent_retry_backoff c) k = Some e
                      /\ tail = [])
                     \/ (power_raises h (agent_retry_backoff c) k = None
                         /\ sleep_raises h d = Some e
                         /\ exists tail',
                              tail = Sleep d :: tail'
                              /\ (tail' = [] \/ tail' = [Sleep d]))))).
Proof.
  unfold attempt_once, on_exception, back_off, compute_sleep_time, time_sleep.
  simpl.
  destruct (operation k) as [r|e]; simpl.
  - destruct (success r); simpl.
    { do 2 (split; [done |]). exists []. simpl.
      split; [done |]. right. left. eauto. }
    destruct (Z.ltb_spec (Z.of_nat k) (agent_max_retries (config a))) as [Hlt|Hge];
      simpl.
    + destruct (power_raises (host a) (agent_retry_backoff (config a)) k)
        as [e1|] eqn:Hp; simpl.
      * rewrite (proj2 (Z.ltb_lt _ _) Hlt), Hp. simpl.
        do 2 (split; [done |]). exists []. split; [done |].
        right. right. eauto 10.
      * destruct (sleep_raises (host a) (sleep_time (config a) k))
          as [e2|] eqn:Hs; simpl.
        -- rewrite (proj2 (Z.ltb_lt _ _) Hlt), Hp. simpl. rewrite Hs. simpl.
           do 2 (split; [done |]). eexists. rewrite <- ?app_assoc. simpl.
           split; [done |]. right. right. eauto 12.
        -- do 2 (split; [done |]). eexists. rewrite <- ?app_assoc. simpl.
           split; [done |]. left. eauto 10.
    + do 2 (split; [done |]). exists []. split; [done |]. left.
      repeat split; try done. right. split; [lia | done].
  - destruct (Z.ltb_spec (Z.of_nat k) (agent_max_retries (config a))) as [Hlt|Hge];
      simpl.
    + destruct (power_raises (host a) (agent_retry_backoff (config a)) k)
        as [e1|] eqn:Hp; simpl.
      * do 2 (split; [done |]). exists []. split; [done |].
        right. right. eauto 10.
      * destruct (sleep_raises (host a) (sleep_time (config a) k))
          as [e2|] eqn:Hs; simpl.
        -- do 2 (split; [done |]). eexists. rewrite <- ?app_assoc. simpl.
           split; [done |]. right. right. eauto 12.
        -- do 2 (split; [done |]). eexists. rewrite <- ?app_assoc. simpl.
           split; [done |]. left. eauto 10.
    + do 2 (split; [done |]). exists []. split; [done |]. right. left.
      repeat split; eauto. right. lia.
Qed.

Lemma retry_loop_spec (n : nat) :
  forall k0 a,
    k0 + n = Z.to_nat (agent_max_retries (config a) + 1) ->
    config (snd (retry_loop operation (seq k0 n) a)) = config a
    /\ host (snd (retry_loop operation (seq k0 n) a)) = host a
    /\ exists new,
         calls (snd (retry_loop operation (seq k0 n) a)) = calls a ++ new
         /\ invocations new <= n
         /\ (n = 0 -> new = [])
         /\ (0 < n -> exists post, new = Invoke k0 :: post)
         /\ (forall k, k < k0 -> after_invoke k new = None)
         /\ (forall k post,
               after_invoke k new = Some post ->
               follows_policy operation (host a) (config a) k post)
         /\ (forall k post e,
               after_invoke k new = Some post ->
               op_failed (operation k) = true ->
               (Z.of_nat k < agent_max_retries (config a))%Z ->
               pause_raises (host a) (config a) k e ->
               fst (retry_loop operation (seq k0 n) a) = Raise e).
Proof.
  induction n as [|n IH]; intros k0 a Hlen.
  { simpl. do 2 (split; [done |]). exists []. rewrite app_nil_r.
    repeat split; try done; try lia. }
  change (seq k0 (S n)) with (k0 :: seq (S k0) n). simpl retry_loop.
  destruct (attempt_once_spec k0 a) as (Hcfg & Hhost & tail & Hcalls & Hcases).
  destruct (attempt_once operation k0 a) as [out a1].
  simpl in Hcfg, Hhost, Hcalls, Hcases.
  destruct Hcases
    as [(-> & Hfail & Htail)
       |[((r & ->) & -> & Hwhy)
        |(e & -> & Hfail & Hlt & Hraise)]].
  - (* the loop goes on *)
    destruct (IH (S k0) a1)
      as (Hcfg' & Hhost' & new & Hcalls' & Hinv & Hnil & Hfirst & Hbefore & Hpol
          & Hexn).
    { rewrite Hcfg. lia. }
    split; [congruence |]. split; [congruence |].
    exists (Invoke k0 :: tail ++ new).
    split; [rewrite Hcalls', Hcalls, <- app_assoc; done |].
    assert (Htl : forall k, after_invoke k (tail ++ new) = after_invoke k new).
    { intros k. by destruct Htail as [(_ & _ & _ & ->)|(_ & ->)]. }
    assert (Hcount : invocations (tail ++ new) = invocations new).
    { by destruct Htail as [(_ & _ & _ & ->)|(_ & ->)]. }
    split; [change (S (invocations (tail ++ new)) <= S n); lia |].
    split; [discriminate |].
    split; [intros _; eauto |].
    split.
    { intros k Hk. simpl. rewrite decide_False by lia. rewrite Htl.
      apply Hbefore. lia. }
    split.
    { intros k post. simpl. destruct (decide (k0 = k)) as [<-|Hne].
      + intros [= <-]. split; [congruence |]. intros _.
        destruct Htail as [(Hlt & Hp & Hs & ->)|(Hge & ->)].
        * split; [done |]. intros _. rewrite Hp, Hs.
          destruct Hfirst as [post' ->]; [lia |]. simpl. eauto.
        * split; [| done]. intros _. simpl. apply Hnil. lia.
      + rewrite Htl, <- Hcfg, <- Hhost. apply Hpol. }
    intros k post e. simpl after_invoke.
    destruct (decide (k0 = k)) as [<-|Hne].
    + intros _ _ Hlt Hraises.
      destruct Htail as [(_ & Hp & Hs & _)|(Hge & _)]; [| done].
      destruct Hraises as [Hp'|[_ Hs']]; congruence.
    + rewrite Htl, <- Hcfg, <- Hhost. apply Hexn.
  - (* the loop returns a result *)
    do 2 (split; [done |]). exists [Invoke k0].
    split; [done |]. split; [unfold invocations; simpl; lia |].
    split; [discriminate |]. split; [eauto |].
    split; [intros k Hk; simpl; by rewrite decide_False by lia |].
    split.
    { intros k post. simpl.
      destruct (decide (k0 = k)) as [<-|Hne]; [| discriminate].
      intros [= <-]. split; [done |]. intros Hfail.
      destruct Hwhy as [Hok|Hge]; [congruence |]. split; done. }
    intros k post e. simpl after_invoke.
    destruct (decide (k0 = k)) as [<-|Hne]; [| discriminate].
    intros _ Hfail Hlt _. destruct Hwhy as [Hok|Hge]; [congruence | done].
  - (* the power or [time.sleep] raises *)
    do 2 (split; [done |]). exists (Invoke k0 :: tail).
    split; [done |].
    assert (Hcount : invocations tail = 0).
    { destruct Hraise as [(_ & ->)|(_ & _ & tail' & -> & [->| ->])]; done. }
    split; [change (S (invocations tail) <= S n); lia |].
    split; [discriminate |]. split; [eauto |].
    split.
    { intros k Hk. simpl. rewrite decide_False by lia.
      destruct Hraise as [(_ & ->)|(_ & _ & tail' & -> & [->| ->])]; done. }
    split.
    { intros k post. simpl. destruct (decide (k0 = k)) as [<-|Hne].
      + intros [= <-]. split; [congruence |]. intros _.
        split; [done |]. intros _.
        destruct Hraise as [(-> & ->)|(-> & -> & tail' & -> & Htail')]; [done |].
        exists tail'. split; [done |]. by destruct Htail' as [->| ->].
      + destruct Hraise as [(_ & ->)|(_ & _ & tail' & -> & [->| ->])]; done. }
    intros k post e'. simpl after_invoke.
    destruct (decide (k0 = k)) as [<-|Hne].
    + intros _ _ _ Hraises. simpl. f_equal.
      destruct Hraise as [(Hp & _)|(Hp & Hs & _)];
        destruct Hraises as [Hp'|[Hp' Hs']]; congruence.
    + destruct Hraise as [(_ & ->)|(_ & _ & tail' & -> & [->| ->])]; done.
Qed.

End RetryFacts.

Lemma sleep_time_monotone (c : AgentConfig) (k : nat) :
  post_init c = Ok c ->
  (1 <= agent_retry_backoff c)%Q ->
  (0 <= sleep_time c k)%Q /\ (sleep_time c k <= sleep_time c (S k))%Q.
Proof.
  intros Hvalid Hmult.
  assert (Hbase : (0 <= agent_retry_delay c)%Q).
  { unfold post_init in Hvalid.
    destruct (agent_max_retries c <? 0)%Z; [discriminate |].
    by destruct (Qlt_le_dec (agent_retry_delay c) 0). }
  assert (Hpos : (0 <= agent_retry_backoff c)%Q)
    by (eapply Qle_trans; [| exact Hmult]; discriminate).
  assert (Hpow : forall j, (0 <= agent_retry_backoff c ^ Z.of_nat j)%Q)
    by (intros j; by apply Qpower_0_le).
  unfold sleep_time. split.
  - by apply Qmult_le_0_compat.
  - apply Qmult_le_compat_nonneg.
    + split; [done | apply Qle_refl].
    + split; [done |]. apply Qpower_le_compat_l; [lia | done].
Qed.

(** C4.  [_retry_operation] with [max_retries = N], [retry_delay = base]
    and [retry_backoff = mult] calls the operation at most [N + 1] times,
    on every interpreter.  A successful attempt, and a failed attempt
    [k >= N], end the loop.  After a failed attempt [k < N] it computes the
    delay [base * mult ** k]; when the power raises, nothing more is called;
    otherwise it calls [time.sleep] with that delay, and makes attempt
    [k + 1] when [time.sleep] returns, and no further attempt when it raises
    (as it does on a negative delay and on one beyond the range of the
    clock).  The exception of the power or of [time.sleep] leaves
    [_retry_operation].  For a configuration that passed [__post_init__] and has
    [mult >= 1] the delays are non-negative and do not decrease with [k]. *)
Theorem retry_operation_bounded_backoff
    (operation : nat -> op_outcome) (a : agent) :
  exists new,
    calls (snd (_retry_operation operation a)) = calls a ++ new
    /\ invocations new <= Z.to_nat (agent_max_retries (config a) + 1)
    /\ (forall k post,
          after_invoke k new = Some post ->
          follows_policy operation (host a) (config a) k post)
    /\ (forall k post e,
          after_invoke k new = Some post ->
          op_failed (operation k) = true ->
          (Z.of_nat k < agent_max_retries (config a))%Z ->
          pause_raises (host a) (config a) k e ->
          fst (_retry_operation operation a) = Raise e)
    /\ (forall k,
          sleep_time (config a) k
          = (agent_retry_delay (config a)
             * agent_retry_backoff (config a) ^ Z.of_nat k)%Q)
    /\ (post_init (config a) = Ok (config a) ->
        (1 <= agent_retry_backoff (config a))%Q ->
        forall k,
          (0 <= sleep_time (config a) k)%Q
          /\ (sleep_time (config a) k <= sleep_time (config a) (S k))%Q).
Proof.
  destruct (retry_loop_spec operation
              (Z.to_nat (agent_max_retries (config a) + 1)) 0 a)
    as (_ & _ & new & Hcalls & Hcount & _ & _ & _ & Hpol & Hexn); [lia |].
  exists new. split; [exact Hcalls |]. split; [exact Hcount |].
  split; [exact Hpol |]. split; [exact Hexn |]. split; [done |].
  intros Hvalid Hmult k. by apply sleep_time_monotone.
Qed.

Lemma retry_operation_bounded_backoff_witness :
  follows_policy always_fails small_numbers default_config 1
    [Sleep (sleep_time default_config 1); Invoke 2;
     Sleep (sleep_time default_config 2); Invoke 3]
  /\ (0 <= sleep_time default_config 1)%Q
  /\ (sleep_time default_config 1 <= sleep_time default_config 2)%Q.
Proof.
  destruct (retry_operation_bounded_backoff always_fails (idle_agent default_config))
    as (new & Hcalls & _ & Hpol & _ & _ & Hmono).
  split.
  - apply Hpol. simpl in Hcalls. rewrite <- Hcalls. reflexivity.
  - apply Hmono; [reflexivity | discriminate].
Defined.

(** The same loop where the interpreter has the bounds of a 64-bit
    machine.  With [max_retries = 3], [retry_delay = 1] and
    [retry_backoff = 10 ** 200] the delay after attempt 1 is beyond the
    range of the clock: [time.sleep] is called, twice, and raises, and
    attempt 2 is never made.  With [retry_delay = 1e-300] and
    [retry_backoff = 2 ** 600] the delay after attempt 2 cannot be
    computed: the power overflows and [time.sleep] is not called. *)
Lemma overflowing_backoff_stops_retrying :
  post_init huge_backoff = Ok huge_backoff
  /\ fst (_retry_operation always_fails
            (on_host bounded_numbers (idle_agent huge_backoff)))
     = Raise (OverflowError "timestamp too large to convert to C _PyTime_t")
  /\ calls (snd (_retry_operation always_fails
                   (on_host bounded_numbers (idle_agent huge_backoff))))
     = [Invoke 0; Sleep 1; Invoke 1; Sleep (10 ^ 200); Sleep (10 ^ 200)]
  /\ post_init overflowing_backoff = Ok overflowing_backoff
  /\ fst (_retry_operation always_fails
            (on_host bounded_numbers (idle_agent overflowing_backoff)))
     = Raise (OverflowError "(34, 'Numerical result out of range')")
  /\ calls (snd (_retry_operation always_fails
                   (on_host bounded_numbers (idle_agent overflowing_backoff))))
     = [Invoke 0; Sleep (sleep_time overflowing_backoff 0);
        Invoke 1; Sleep (sleep_time overflowing_backoff 1); Invoke 2].
Proof. repeat split; vm_compute; reflexivity. Qed.

(** C4 (as stated) fails for a negative multiplier.  With [max_retries = 3],
    [retry_delay = 1] and [retry_backoff = -2], which [__post_init__]
    accepts, attempt 1 fails and [1 < 3], yet attempt 2 is never made: the
    delay is [-2], [time.sleep] raises, and the error leaves
    [_retry_operation]. *)
Lemma negative_backoff_stops_retrying :
  post_init negative_backoff = Ok negative_backoff
  /\ fst (_retry_operation always_fails (idle_agent negative_backoff))
     = Raise (ValueError "sleep length must be non-negative")
  /\ calls (snd (_retry_operation always_fails (idle_agent negative_backoff)))
     = [Invoke 0; Sleep 1; Invoke 1; Sleep (-2); Sleep (-2)]
  /\ op_failed (always_fails 1) = true
  /\ (Z.of_nat 1 < agent_max_retries negative_backoff)%Z
  /\ after_invoke 2
       (calls (snd (_retry_operation always_fails (idle_agent negative_backoff))))
     = None.
Proof. repeat split. Qed.

(** ** The levels and the runs the code produces *)

(** C1.  The code at three acyclic task sets.  With [B] depending on [A],
    both land in level 0 when [A] is added first, and [B] lands in level 0
    with [A] behind it in level 1 when [B] is added first; in scenario 1
    the task [C] shares level 0 with its dependencies [A] and [B].  A
    dependency is visited at [level + 1], so it is placed after the task
    that needs it. *)
Theorem resolve_dependencies_levels_of_samples :
  fst <$> resolve_dependencies chain_AB = Some (Ok [["A"; "B"]])
  /\ fst <$> resolve_dependencies chain_BA = Some (Ok [["B"]; ["A"]])
  /\ fst <$> resolve_dependencies scenario_1 = Some (Ok [["A"; "B"; "C"]])
  /\ depends (tasks chain_AB) "B" "A"
  /\ depends (tasks chain_BA) "B" "A".
Proof.
  split; [reflexivity |]. split; [reflexivity |]. split; [reflexivity |].
  split; eexists; (split; [reflexivity |]); (split; [| reflexivity]); simpl; left.
Qed.

(** C2.  The code on [A], [C] (depends on [B]), [B] (depends on [A]), added
    in that order, when the body of [A] reports a failure.  The levels are
    [[A; C]; [B]].  [A] ends [FAILED]; nothing is cancelled, because
    [execute_task] returned; [B], a direct dependent of [A], is run in the
    next level and ends [COMPLETED]. *)
Theorem failed_task_dependents_still_run :
  fst <$> resolve_dependencies chain_ACB = Some (Ok [["A"; "C"]; ["B"]])
  /\ depends (tasks chain_ACB) "B" "A"
  /\ exists w,
       execute_workflow sample_id A_fails (start chain_ACB) = Some (Ok tt, w)
       /\ history w
          = [("A", RUNNING); ("A", FAILED); ("C", RUNNING); ("C", COMPLETED);
             ("B", RUNNING); ("B", COMPLETED)]
       /\ outcome_of "A" w = Some (FAILED, Some "boom", Some 1%Z)
       /\ outcome_of "B" w = Some (COMPLETED, None, Some 5%Z).
Proof.
  split; [reflexivity |]. split.
  - eexists. split; [reflexivity |]. split; [| reflexivity]. simpl. left.
  - eexists. repeat split.
Qed.

(** C3.  The code on [B] (depends on [A]) and [A], added in that order,
    when both bodies succeed.  The levels are [[B]; [A]]: [B] is passed to
    [execute_task] first, while [A] is still [PENDING], and has ended
    [COMPLETED] before [A] starts. *)
Theorem dependent_runs_before_dependency :
  fst <$> resolve_dependencies chain_BA = Some (Ok [["B"]; ["A"]])
  /\ depends (tasks chain_BA) "B" "A"
  /\ outcome_of "A" (start chain_BA) = Some (PENDING, None, None)
  /\ (exists w1,
        execute_task sample_id all_succeed "B" (start chain_BA) = Ok w1
        /\ history w1 = [("B", RUNNING); ("B", COMPLETED)]
        /\ outcome_of "A" w1 = Some (PENDING, None, None))
  /\ exists w,
       execute_workflow sample_id all_succeed (start chain_BA) = Some (Ok tt, w)
       /\ history w
          = [("B", RUNNING); ("B", COMPLETED); ("A", RUNNING); ("A", COMPLETED)].
Proof.
  split; [reflexivity |]. split.
  { eexists. split; [reflexivity |]. split; [| reflexivity]. simpl. left. }
  split; [reflexivity |]. split.
  - eexists. repeat split.
  - eexists. repeat split.
Qed.

(** * Further properties of the code *)

(** ** [_cancel_dependent_tasks] *)

Lemma cancel_if_dependent_idem (id : string) (kv : string * TaskExecution) :
  cancel_if_dependent id (cancel_if_dependent id kv) = cancel_if_dependent id kv.
Proof.
  unfold cancel_if_dependent.
  destruct (depends_on id (snd kv) && bool_decide (status (snd kv) = PENDING))
    eqn:Hc; simpl.
  - unfold depends_on in *. simpl. by rewrite andb_false_r.
  - by rewrite Hc.
Qed.

Lemma cancelled_by_after_cancel (id : string) (kv : string * TaskExecution) :
  cancelled_by id (cancel_if_dependent id kv) = [].
Proof.
  unfold cancelled_by, cancel_if_dependent.
  destruct (depends_on id (snd kv) && bool_decide (status (snd kv) = PENDING))
    eqn:Hc; simpl.
  - unfold depends_on in *. simpl. by rewrite andb_false_r.
  - by rewrite Hc.
Qed.

(** X1.  Cancelling the dependents of the same task a second time changes
    nothing: no record is altered and no further status is assigned. *)
Theorem cancel_dependent_tasks_idempotent (id : string) (w : world) :
  _cancel_dependent_tasks id (_cancel_dependent_tasks id w)
  = _cancel_dependent_tasks id w.
Proof.
  unfold _cancel_dependent_tasks. simpl. f_equal.
  - f_equal. rewrite map_map. apply map_ext. intros kv.
    apply cancel_if_dependent_idem.
  - rewrite <- (app_nil_r (history w ++ _)) at 2. f_equal.
    induction (tasks (coordinator w)) as [|kv l IH]; simpl; [done |].
    by rewrite cancelled_by_after_cancel, IH.
Qed.

Lemma cancel_get (id k : string) (ts : Dict.t TaskExecution) :
  Dict.get k (map (cancel_if_dependent id) ts)
  = (fun te => snd (cancel_if_dependent id (k, te))) <$> Dict.get k ts.
Proof.
  induction ts as [|[k0 te] ts IH]; simpl; [done |].
  assert (Hfst : fst (cancel_if_dependent id (k0, te)) = k0)
    by (unfold cancel_if_dependent; simpl; by destruct (_ && _)).
  destruct (cancel_if_dependent id (k0, te)) as [k1 te1] eqn:Hc.
  simpl in Hfst. subst k1.
  destruct (decide (k = k0)) as [->|Hne]; [| apply IH].
  simpl. rewrite Hc. done.
Qed.

(** X2.  [_cancel_dependent_tasks] keeps the registered ids and their
    order.  It changes a record only when the record is [PENDING] and
    lists the failed id among its own dependencies, and then only the
    status, to [CANCELLED]: a task that is running or finished, and a task
    that reaches the failed one only through other tasks, is left as it
    is. *)
Theorem cancel_dependent_tasks_only_pending_direct
    (failed : string) (w : world) (k : string) (te : TaskExecution) :
  Dict.get k (tasks (coordinator w)) = Some te ->
  Dict.keys (tasks (coordinator (_cancel_dependent_tasks failed w)))
  = Dict.keys (tasks (coordinator w))
  /\ (status te = PENDING ->
      failed ∈ dependencies (task_definition te) ->
      Dict.get k (tasks (coordinator (_cancel_dependent_tasks failed w)))
      = Some (set_status CANCELLED te))
  /\ (status te <> PENDING \/ failed ∉ dependencies (task_definition te) ->
      Dict.get k (tasks (coordinator (_cancel_dependent_tasks failed w)))
      = Some te).
Proof.
  intros Hget. simpl. split.
  - unfold Dict.keys. rewrite map_map. apply map_ext. intros kv.
    unfold cancel_if_dependent. by destruct (_ && _).
  - rewrite cancel_get, Hget. simpl. unfold cancel_if_dependent, depends_on.
    simpl. split.
    + intros Hp Hin. by rewrite bool_decide_eq_true_2, bool_decide_eq_true_2.
    + intros [Hp|Hin].
      * rewrite (bool_decide_eq_false_2 (status te = PENDING)) by done.
        by rewrite andb_false_r.
      * by rewrite (bool_decide_eq_false_2 _ Hin).
Qed.

Lemma cancel_dependent_tasks_only_pending_direct_witness :
  Dict.get "C" (tasks (coordinator (_cancel_dependent_tasks "A" (start chain_ACB))))
  = Some (new_execution (sample_definition "C" REPORTING ["B"]))
  /\ Dict.get "B" (tasks (coordinator (_cancel_dependent_tasks "A" (start chain_ACB))))
     = Some (set_status CANCELLED
               (new_execution (sample_definition "B" RISK_ANALYSIS ["A"]))).
Proof.
  split.
  - apply (proj2 (proj2 (cancel_dependent_tasks_only_pending_direct
                           "A" (start chain_ACB) "C"
                           (new_execution (sample_definition "C" REPORTING ["B"]))
                           eq_refl))).
    right. simpl. rewrite list_elem_of_singleton. discriminate.
  - apply (proj1 (proj2 (cancel_dependent_tasks_only_pending_direct
                           "A" (start chain_ACB) "B"
                           (new_execution (sample_definition "B" RISK_ANALYSIS ["A"]))
                           eq_refl))).
    + reflexivity.
    + simpl. left.
Defined.

(** ** The levels of [resolve_dependencies] *)

Lemma concat_replicate_nil {A} (n : nat) : concat (replicate n ([] : list A)) = [].
Proof. induction n as [|n IH]; simpl; [done | exact IH]. Qed.

Lemma alter_append_concat (node : string) (i : nat) (l : list (list string)) :
  i < length l ->
  concat (alter (fun x => x ++ [node]) i l) ≡ₚ node :: concat l.
Proof.
  revert i. induction l as [|x l IH]; intros i Hi; simpl in Hi; [lia |].
  destruct i as [|i]; simpl.
  - rewrite <- app_assoc. simpl. symmetry. apply Permutation_middle.
  - rewrite (IH i) by lia. symmetry. apply Permutation_middle.
Qed.

Lemma place_concat (node : string) (level : nat) (levels : list (list string)) :
  concat (place node level levels) ≡ₚ node :: concat levels.
Proof.
  unfold place. rewrite alter_append_concat.
  - by rewrite concat_app, concat_replicate_nil, app_nil_r.
  - rewrite length_app, length_replicate. lia.
Qed.

Lemma for_each_inv {A S} (P : S -> Prop) (body : A -> S -> option (res S))
    (xs : list A) (st st' : S) :
  (forall x s s', x ∈ xs -> P s -> body x s = Some (Ok s') -> P s') ->
  P st -> for_each body xs st = Some (Ok st') -> P st'.
Proof.
  revert st. induction xs as [|x l IH]; intros st Hbody HP; simpl.
  - by intros [= <-].
  - destruct (body x st) as [[s1|e]|] eqn:Hb; try discriminate.
    apply IH.
    + intros y s s' Hy. apply Hbody. by right.
    + eapply Hbody; eauto. left.
Qed.

Lemma for_each_skip {A S} (body : A -> S -> option (res S)) (xs : list A) (st : S) :
  (forall x s, x ∈ xs -> body x s = Some (Ok s)) ->
  for_each body xs st = Some (Ok st).
Proof.
  induction xs as [|x l IH]; intros Hskip; simpl; [done |].
  rewrite Hskip by left. apply IH. intros y s Hy. apply Hskip. by right.
Qed.

Section Levels.

Variable ts : Dict.t TaskExecution.

Lemma dfs_levels_ok (fuel : nat) :
  forall node level st st',
    node ∈ registered ts ->
    levels_ok ts st ->
    dfs ts fuel node level st = Some (Ok st') ->
    levels_ok ts st'.
Proof.
  induction fuel as [|fuel IH]; intros node level st st' Hreg Hok; simpl;
    [discriminate |].
  destruct (decide (node ∈ temp_visited st)) as [|Hnt]; [discriminate |].
  destruct (decide (node ∈ visited st)) as [Hv|Hnv]; [by intros [= <-] |].
  match goal with
  | |- context [for_each ?b ?l ?s] =>
      destruct (for_each b l s) as [[st2|e]|] eqn:Hloop; try discriminate
  end.
  intros [= <-].
  assert (Hok2 : levels_ok ts st2).
  { eapply (for_each_inv (levels_ok ts)); [| | exact Hloop]; [| exact Hok].
    intros x s s' _ Hs. cbv beta. destruct (Dict.mem x ts) eqn:Hmem.
    - apply IH; [by apply mem_registered | done].
    - by intros [= <-]. }
  apply (for_each_ok ts _ _ (fun _ => False)) in Hloop.
  2: { intros x s s' _. destruct (Dict.mem x ts).
       - intros Hd. destruct (dfs_ok ts _ _ _ _ _ Hd). by split.
       - intros [= <-]. split; [apply extends_refl | done]. }
  destruct Hloop as [(_ & _ & Hnew & _) _]. simpl in Hnew.
  assert (Hfresh : node ∉ visited st2).
  { intros Hin. destruct (Hnew node Hin) as [?|Hout]; [done |]. set_solver. }
  destruct Hok2 as (Hnd & Hiff & Hsub).
  split; [| split]; simpl.
  - rewrite place_concat. apply NoDup_cons. split; [| done].
    by rewrite Hiff.
  - intros x. rewrite place_concat, elem_of_cons, Hiff. set_solver.
  - set_solver.
Qed.

Lemma resolve_loop_levels_ok (st : dfs_state) :
  resolve_loop ts initial_state = Some (Ok st) ->
  levels_ok ts st /\ registered ts ⊆ visited st.
Proof.
  intros Hloop. split; [| by apply resolve_loop_ok in Hloop as [_ ?]].
  unfold resolve_loop in Hloop.
  eapply (for_each_inv (levels_ok ts)); [| | exact Hloop].
  - intros x s s' Hx Hs. cbv beta.
    destruct (decide (x ∈ visited s)); [by intros [= <-] |].
    apply dfs_levels_ok; [| done]. unfold registered.
    by apply elem_of_list_to_set.
  - unfold levels_ok, initial_state. simpl.
    split; [apply NoDup_nil_2 |]. split; [| set_solver].
    intros x. rewrite elem_of_nil. set_solver.
Qed.

Lemma resolve_levels_partition (levels : list (list string)) :
  resolve_levels ts = Some (Ok levels) ->
  NoDup (concat levels)
  /\ (forall x, x ∈ concat levels <-> x ∈ Dict.keys ts).
Proof.
  unfold resolve_levels.
  destruct (resolve_loop ts initial_state) as [[st|e]|] eqn:Hloop;
    try discriminate.
  intros [= <-]. apply resolve_loop_levels_ok in Hloop
    as [(Hnd & Hiff & Hsub) Hreg].
  split; [done |]. intros x. rewrite Hiff. unfold registered in *.
  split; intros Hx.
  - apply Hsub in Hx. by apply elem_of_list_to_set in Hx.
  - apply Hreg. by apply elem_of_list_to_set.
Qed.

(** *** Task sets without dependencies among them *)

Lemma independent_no_registered_dep (node dep : string) :
  independent ts ->
  dep ∈ default [] (Dict.get node (dependency_graph ts)) ->
  Dict.mem dep ts = false.
Proof.
  intros Hind Hdep. rewrite dependency_graph_get in Hdep.
  destruct (Dict.get node ts) as [te|] eqn:Hget; simpl in Hdep;
    [| by apply elem_of_nil in Hdep].
  destruct (Dict.mem dep ts) eqn:Hmem; [| done].
  exfalso. apply (Hind node dep). by exists te.
Qed.

Lemma resolve_loop_independent (l : list string) :
  independent ts ->
  forall p, NoDup (p ++ l) ->
    for_each
      (fun task_id s =>
         if decide (task_id ∈ visited s) then Some (Ok s)
         else dfs ts (dfs_fuel ts) task_id 0 s)
      l (placed_in_level_0 p)
    = Some (Ok (placed_in_level_0 (p ++ l))).
Proof.
  intros Hind. induction l as [|x l IH]; intros p Hnd; simpl.
  - by rewrite app_nil_r.
  - assert (Hx : x ∉ p).
    { apply NoDup_app in Hnd as (_ & Hdisj & _). intros Hin.
      apply (Hdisj x Hin). left. }
    rewrite decide_False by (simpl; by rewrite elem_of_list_to_set).
    unfold dfs_fuel. simpl.
    rewrite decide_False by set_solver.
    rewrite decide_False by (by rewrite elem_of_list_to_set).
    rewrite for_each_skip.
    2: { intros d s Hd.
         by rewrite (independent_no_registered_dep x d Hind Hd). }
    replace (p ++ x :: l) with ((p ++ [x]) ++ l) by (by rewrite <- app_assoc).
    rewrite <- IH by (by rewrite <- app_assoc).
    f_equal. f_equal. unfold placed_in_level_0. f_equal.
    + simpl. by destruct p.
    + simpl. rewrite list_to_set_app_L. simpl. set_solver.
    + simpl. set_solver.
Qed.

Lemma resolve_levels_independent :
  NoDup (Dict.keys ts) ->
  independent ts ->
  resolve_levels ts
  = Some (Ok match Dict.keys ts with [] => [] | _ => [Dict.keys ts] end).
Proof.
  intros Hnd Hind. unfold resolve_levels, resolve_loop.
  change initial_state with (placed_in_level_0 []).
  by rewrite (resolve_loop_independent (Dict.keys ts) Hind []).
Qed.

End Levels.

(** X3.  When [resolve_dependencies] returns, the levels list every
    registered task id, each exactly once, and nothing else; the
    coordinator keeps its tasks and its [execution_order] becomes the
    levels laid end to end, a rearrangement of the registered ids. *)
Theorem resolve_dependencies_levels_partition
    (self c : TaskCoordinator) (levels : list (list string)) :
  resolve_dependencies self = Some (Ok levels, c) ->
  NoDup (concat levels)
  /\ (forall x, x ∈ concat levels <-> x ∈ Dict.keys (tasks self))
  /\ tasks c = tasks self
  /\ execution_order c = concat levels
  /\ (NoDup (Dict.keys (tasks self)) ->
      execution_order c ≡ₚ Dict.keys (tasks self)).
Proof.
  unfold resolve_dependencies.
  destruct (resolve_levels (tasks self)) as [[lv|e]|] eqn:Hres; try discriminate.
  intros [= <- <-]. simpl.
  destruct (resolve_levels_partition _ _ Hres) as [Hnd Hiff].
  split; [done |]. split; [done |]. split; [done |]. split; [done |].
  intros Hkeys. by apply NoDup_Permutation.
Qed.

Lemma resolve_dependencies_levels_partition_witness :
  NoDup (concat [["A"; "C"]; ["B"]])
  /\ (forall x, x ∈ concat [["A"; "C"]; ["B"]] <-> x ∈ Dict.keys (tasks chain_ACB))
  /\ tasks {| tasks := tasks chain_ACB; execution_order := ["A"; "C"; "B"] |}
     = tasks chain_ACB
  /\ execution_order
       {| tasks := tasks chain_ACB; execution_order := ["A"; "C"; "B"] |}
     = concat [["A"; "C"]; ["B"]]
  /\ (NoDup (Dict.keys (tasks chain_ACB)) ->
      execution_order
        {| tasks := tasks chain_ACB; execution_order := ["A"; "C"; "B"] |}
      ≡ₚ Dict.keys (tasks chain_ACB)).
Proof.
  apply (resolve_dependencies_levels_partition chain_ACB
           {| tasks := tasks chain_ACB; execution_order := ["A"; "C"; "B"] |}
           [["A"; "C"]; ["B"]]).
  reflexivity.
Defined.

(** X4.  When no task depends on a registered task, [resolve_dependencies]
    returns one level that lists the task ids in the order in which they
    were added, and no level at all for an empty task set. *)
Theorem resolve_dependencies_independent_single_level (self : TaskCoordinator) :
  NoDup (Dict.keys (tasks self)) ->
  independent (tasks self) ->
  fst <$> resolve_dependencies self
  = Some (Ok match Dict.keys (tasks self) with
             | [] => []
             | _ => [Dict.keys (tasks self)]
             end).
Proof.
  intros Hnd Hind. unfold resolve_dependencies.
  by rewrite (resolve_levels_independent _ Hnd Hind).
Qed.

Lemma resolve_dependencies_independent_single_level_witness :
  fst <$> resolve_dependencies unrelated_AB = Some (Ok [["A"; "B"]]).
Proof.
  apply (resolve_dependencies_independent_single_level unrelated_AB).
  - simpl. apply NoDup_cons. split; [rewrite list_elem_of_singleton; discriminate |].
    apply NoDup_singleton.
  - intros a b (te & Hget & Hin & Hmem). simpl in Hget.
    destruct (decide (a = "A")) as [->|_].
    + injection Hget as <-. simpl in Hin. by apply elem_of_nil in Hin.
    + destruct (decide (a = "B")) as [->|_]; [| discriminate].
      injection Hget as <-. simpl in Hin.
      apply list_elem_of_singleton in Hin as ->. discriminate.
Defined.

Lemma dict_get_elem_of {V} (k : string) (v : V) (d : Dict.t V) :
  Dict.get k d = Some v -> (k, v) ∈ d.
Proof.
  induction d as [|[k0 v0] d IH]; simpl; [discriminate |].
  destruct (decide (k = k0)) as [->|Hne].
  - intros [= ->]. left.
  - intros H. right. by apply IH.
Qed.

Lemma credit_workflow_tasks (g : TaskType -> string) :
  NoDup [g DATA_COLLECTION; g RISK_ANALYSIS; g DOCUMENTATION; g REPORTING] ->
  create_credit_workflow g new_coordinator
  = ({| tasks :=
          [(g DATA_COLLECTION, new_execution (definition (DataCollectionTask g)));
           (g RISK_ANALYSIS, new_execution (definition (RiskAnalysisTask g)));
           (g DOCUMENTATION, new_execution (definition (DocumentationTask g)));
           (g REPORTING, new_execution (definition (ReportingTask g)))];
        execution_order := [] |},
     [g DATA_COLLECTION; g RISK_ANALYSIS; g DOCUMENTATION; g REPORTING]).
Proof.
  intros Hnd.
  apply NoDup_cons in Hnd as [H1 Hnd]. apply NoDup_cons in Hnd as [H2 Hnd].
  apply NoDup_cons in Hnd as [H3 _].
  assert (g RISK_ANALYSIS <> g DATA_COLLECTION) by set_solver.
  assert (g DOCUMENTATION <> g DATA_COLLECTION) by set_solver.
  assert (g REPORTING <> g DATA_COLLECTION) by set_solver.
  assert (g DOCUMENTATION <> g RISK_ANALYSIS) by set_solver.
  assert (g REPORTING <> g RISK_ANALYSIS) by set_solver.
  assert (g REPORTING <> g DOCUMENTATION) by set_solver.
  unfold create_credit_workflow, add_task, new_coordinator. simpl.
  do 3 (rewrite !decide_False by done; simpl).
  reflexivity.
Qed.

Lemma credit_workflow_independent (g : TaskType -> string) :
  (forall ty, g ty ∉ class_dependency_names) ->
  independent
    [(g DATA_COLLECTION, new_execution (definition (DataCollectionTask g)));
     (g RISK_ANALYSIS, new_execution (definition (RiskAnalysisTask g)));
     (g DOCUMENTATION, new_execution (definition (DocumentationTask g)));
     (g REPORTING, new_execution (definition (ReportingTask g)))].
Proof.
  intros Hfresh a b (te & Hget & Hin & Hmem).
  assert (Hb : b ∈ class_dependency_names).
  { apply dict_get_elem_of in Hget. unfold class_dependency_names.
    rewrite !elem_of_cons, elem_of_nil in Hget.
    destruct Hget as [[= _ ->]|[[= _ ->]|[[= _ ->]|[[= _ ->]|[]]]]];
      simpl in Hin; rewrite ?elem_of_cons, ?elem_of_nil in *; tauto. }
  apply dict_mem_get, dict_get_keys in Hmem. simpl in Hmem.
  rewrite !elem_of_cons, elem_of_nil in Hmem.
  destruct Hmem as [->|[->|[->|[->|[]]]]]; by eapply Hfresh.
Qed.

(** X5.  The workflow that [create_credit_workflow] registers has no
    dependency that binds: whenever the four generated ids differ from one
    another and from the names [data_collection], [risk_analysis] and
    [documentation] that the task classes list as dependencies,
    [resolve_dependencies] puts all four tasks into one level, in the order
    data collection, risk analysis, documentation, reporting. *)
Theorem credit_workflow_resolves_to_one_level (g : TaskType -> string) :
  NoDup [g DATA_COLLECTION; g RISK_ANALYSIS; g DOCUMENTATION; g REPORTING] ->
  (forall ty, g ty ∉ class_dependency_names) ->
  snd (create_credit_workflow g new_coordinator)
  = [g DATA_COLLECTION; g RISK_ANALYSIS; g DOCUMENTATION; g REPORTING]
  /\ fst <$> resolve_dependencies (fst (create_credit_workflow g new_coordinator))
     = Some (Ok [[g DATA_COLLECTION; g RISK_ANALYSIS; g DOCUMENTATION;
                  g REPORTING]]).
Proof.
  intros Hnd Hfresh. rewrite (credit_workflow_tasks g Hnd). simpl.
  split; [done |]. unfold resolve_dependencies. simpl.
  rewrite resolve_levels_independent; [done | done |].
  by apply credit_workflow_independent.
Qed.

Lemma credit_workflow_resolves_to_one_level_witness :
  snd (create_credit_workflow credit_ids new_coordinator)
  = [credit_ids DATA_COLLECTION; credit_ids RISK_ANALYSIS;
     credit_ids DOCUMENTATION; credit_ids REPORTING]
  /\ fst <$> resolve_dependencies
               (fst (create_credit_workflow credit_ids new_coordinator))
     = Some (Ok [[credit_ids DATA_COLLECTION; credit_ids RISK_ANALYSIS;
                  credit_ids DOCUMENTATION; credit_ids REPORTING]]).
Proof.
  apply (credit_workflow_resolves_to_one_level credit_ids).
  - simpl.
    repeat (apply NoDup_cons; split;
            [rewrite ?elem_of_cons, elem_of_nil; intuition discriminate |]).
    apply NoDup_nil_2.
  - intros ty. unfold class_dependency_names.
    rewrite !elem_of_cons, elem_of_nil. destruct ty; simpl; intuition discriminate.
Defined.

(** ** Workflows of tasks whose instances can be built *)

Lemma started_app (h1 h2 : list (string * TaskStatus)) :
  started (h1 ++ h2) = started h1 ++ started h2.
Proof. unfold started. by rewrite List.filter_app, map_app. Qed.

Section Constructible_runs.

Variable generated_id : TaskType -> string.
Variable work : string -> work_outcome.

Lemma execute_task_constructible (id : string) (w : world) (d : TaskDefinition) :
  Dict.get id (definitions_of w) = Some d ->
  constructible d = true ->
  exists w' s,
    execute_task generated_id work id w = Ok w'
    /\ (s = COMPLETED \/ s = FAILED)
    /\ history w' = history w ++ [(id, RUNNING); (id, s)]
    /\ settled_in w' id
    /\ (forall k, k <> id ->
          Dict.get k (tasks (coordinator w')) = Dict.get k (tasks (coordinator w))).
Proof.
  intros Hd Hsup. rewrite definitions_of_get in Hd.
  destruct (Dict.get id (tasks (coordinator w))) as [te|] eqn:Hget;
    [| discriminate].
  injection Hd as <-. unfold execute_task. rewrite Hget.
  destruct (create_task_instance_constructible generated_id _ Hsup) as [task ->].
  destruct (run_body_settles task (work id)
              (set_start_time (now w) (set_status RUNNING te)))
    as (Hst & _ & _ & _).
  eexists. eexists. split; [reflexivity |]. simpl.
  split; [exact Hst |]. split; [done |]. split.
  - eexists. split; [apply dict_get_set_eq |]. split; simpl; eauto.
  - intros k Hk. by apply dict_get_set_ne.
Qed.

Lemma settled_in_kept (id k : string) (w w' : world) :
  (forall j, j <> id ->
     Dict.get j (tasks (coordinator w')) = Dict.get j (tasks (coordinator w))) ->
  settled_in w' id -> settled_in w k -> settled_in w' k.
Proof.
  intros Hframe Hid Hk. destruct (decide (k = id)) as [->|Hne]; [done |].
  destruct Hk as (te & Hget & Hs). exists te. by rewrite Hframe.
Qed.

Lemma submit_level_constructible (l : list string) :
  forall w,
    all_constructible w ->
    (forall id, id ∈ l -> is_Some (Dict.get id (definitions_of w))) ->
    snd (submit_level generated_id work l w) = map (fun id => (id, None)) l
    /\ exists new,
         history (fst (submit_level generated_id work l w)) = history w ++ new
         /\ started new = l
         /\ (forall id, (id, CANCELLED) ∉ new)
         /\ (forall id, id ∈ l ->
               settled_in (fst (submit_level generated_id work l w)) id)
         /\ (forall k, settled_in w k ->
               settled_in (fst (submit_level generated_id work l w)) k).
Proof.
  induction l as [|id l IH]; intros w Hsup Hreg; simpl.
  - split; [done |]. exists []. rewrite app_nil_r.
    repeat split; try done.
    + intros id Hin. by apply elem_of_nil in Hin.
    + intros id Hin. by apply elem_of_nil in Hin.
  - destruct (Hreg id ltac:(left)) as [d Hd].
    destruct (execute_task_constructible id w d Hd (Hsup id d Hd))
      as (w1 & s & Hex & Hs & Hhist & Hset & Hframe).
    rewrite Hex. simpl.
    pose proof (execute_task_definitions _ _ _ _ _ Hex) as Hdefs.
    destruct (IH w1) as (Hfut & new & Hhist' & Hstarted & Hnc & Hin & Hkeep).
    { unfold all_constructible. rewrite Hdefs. exact Hsup. }
    { intros j Hj. rewrite Hdefs. apply Hreg. by right. }
    split; [by rewrite Hfut |].
    exists ([(id, RUNNING); (id, s)] ++ new).
    split; [by rewrite Hhist', Hhist, <- app_assoc |].
    split.
    { rewrite started_app, Hstarted. unfold started. simpl.
      by destruct Hs as [-> | ->]. }
    split.
    { intros j Hj. apply elem_of_app in Hj as [Hj|Hj]; [| by apply (Hnc j)].
      rewrite !elem_of_cons, elem_of_nil in Hj.
      destruct Hj as [[= _ ]|[[= _ <-]|[]]]. by destruct Hs. }
    split.
    + intros j Hj. apply elem_of_cons in Hj as [->|Hj]; [by apply Hkeep | by apply Hin].
    + intros k Hk. apply Hkeep. by eapply settled_in_kept.
Qed.

Lemma gather_level_no_exception (l : list string) (w : world) :
  gather_level (map (fun id => (id, None)) l) w = w.
Proof. induction l as [|id l IH]; simpl; [done | exact IH]. Qed.

Lemma run_levels_constructible (levels : list (list string)) :
  forall w,
    all_constructible w ->
    (forall id, id ∈ concat levels -> is_Some (Dict.get id (definitions_of w))) ->
    exists new,
      history (foldl (run_level generated_id work) w levels) = history w ++ new
      /\ started new = concat levels
      /\ (forall id, (id, CANCELLED) ∉ new)
      /\ (forall id, id ∈ concat levels ->
            settled_in (foldl (run_level generated_id work) w levels) id)
      /\ (forall k, settled_in w k ->
            settled_in (foldl (run_level generated_id work) w levels) k).
Proof.
  induction levels as [|l levels IH]; intros w Hsup Hreg; simpl.
  - exists []. rewrite app_nil_r. repeat split; try done.
    + intros id Hin. by apply elem_of_nil in Hin.
    + intros id Hin. by apply elem_of_nil in Hin.
  - destruct (submit_level_constructible l w Hsup)
      as (Hfut & new1 & Hhist1 & Hst1 & Hnc1 & Hin1 & Hkeep1).
    { intros id Hid. apply Hreg. simpl. apply elem_of_app. by left. }
    assert (Hrun : run_level generated_id work w l
                   = fst (submit_level generated_id work l w)).
    { unfold run_level. rewrite Hfut. apply gather_level_no_exception. }
    rewrite Hrun.
    set (w1 := fst (submit_level generated_id work l w)) in *.
    assert (Hdefs : definitions_of w1 = definitions_of w)
      by apply submit_level_definitions.
    destruct (IH w1) as (new2 & Hhist2 & Hst2 & Hnc2 & Hin2 & Hkeep2).
    { unfold all_constructible. rewrite Hdefs. exact Hsup. }
    { intros id Hid. rewrite Hdefs. apply Hreg. simpl. apply elem_of_app.
      by right. }
    exists (new1 ++ new2).
    split; [by rewrite Hhist2, Hhist1, <- app_assoc |].
    split; [by rewrite started_app, Hst1, Hst2 |].
    split.
    { intros id Hid. apply elem_of_app in Hid as [Hid|Hid];
        [by apply (Hnc1 id) | by apply (Hnc2 id)]. }
    split.
    + intros id Hid. apply elem_of_app in Hid as [Hid|Hid];
        [apply Hkeep2; by apply Hin1 | by apply Hin2].
    + intros k Hk. apply Hkeep2. by apply Hkeep1.
Qed.

End Constructible_runs.

(** X6.  When a task instance can be built for every registered task (its
    type has a class, and the metadata values that the constructor
    dereferences are dictionaries) and [resolve_dependencies] returns
    levels, [execute_workflow] returns, and in that run every registered
    task is passed to [execute_task] exactly once, in the order of the
    levels; no task is ever marked [CANCELLED], whatever the task bodies
    do; and at the end every registered task is [COMPLETED] or [FAILED]
    with its [end_time] set. *)
Theorem execute_workflow_runs_every_task_once
    (generated_id : TaskType -> string) (work : string -> work_outcome)
    (w : world) (levels : list (list string)) (c : TaskCoordinator) :
  resolve_dependencies (coordinator w) = Some (Ok levels, c) ->
  (forall id te,
     Dict.get id (tasks (coordinator w)) = Some te ->
     constructible (task_definition te) = true) ->
  exists w' new,
    execute_workflow generated_id work w = Some (Ok tt, w')
    /\ history w' = history w ++ new
    /\ started new = concat levels
    /\ NoDup (started new)
    /\ (forall id, id ∈ started new <-> id ∈ Dict.keys (tasks (coordinator w)))
    /\ (forall id, (id, CANCELLED) ∉ new)
    /\ (forall id,
          id ∈ Dict.keys (tasks (coordinator w)) ->
          exists te',
            Dict.get id (tasks (coordinator w')) = Some te'
            /\ (status te' = COMPLETED \/ status te' = FAILED)
            /\ is_Some (end_time te')).
Proof.
  intros Hres Hsup. unfold execute_workflow. rewrite Hres.
  unfold resolve_dependencies in Hres.
  destruct (resolve_levels (tasks (coordinator w))) as [[lv|e]|] eqn:Hlv;
    try discriminate.
  injection Hres as -> <-.
  destruct (resolve_levels_partition _ _ Hlv) as [Hnd Hiff].
  set (w0 := {| coordinator := _; now := now w; history := history w |}).
  assert (Hdefs : definitions_of w0 = definitions_of w) by done.
  destruct (run_levels_constructible generated_id work levels w0)
    as (new & Hhist & Hst & Hnc & Hin & _).
  { intros id d. rewrite Hdefs, definitions_of_get.
    destruct (Dict.get id (tasks (coordinator w))) as [te|] eqn:Hget;
      [| discriminate].
    intros [= <-]. by eapply Hsup. }
  { intros id Hid. rewrite Hdefs, definitions_of_get.
    apply Hiff, dict_get_keys in Hid as [te ->]. simpl. eauto. }
  eexists. exists new. split; [reflexivity |].
  split; [exact Hhist |]. split; [exact Hst |].
  rewrite Hst. split; [exact Hnd |]. split; [exact Hiff |].
  split; [exact Hnc |].
  intros id Hid. apply Hiff in Hid. destruct (Hin id Hid) as (te' & Hget & Hs & He).
  by exists te'.
Qed.

Lemma execute_workflow_runs_every_task_once_witness :
  exists w' new,
    execute_workflow sample_id A_fails (start chain_ACB) = Some (Ok tt, w')
    /\ history w' = history (start chain_ACB) ++ new
    /\ started new = concat [["A"; "C"]; ["B"]]
    /\ NoDup (started new)
    /\ (forall id,
          id ∈ started new <-> id ∈ Dict.keys (tasks (coordinator (start chain_ACB))))
    /\ (forall id, (id, CANCELLED) ∉ new)
    /\ (forall id,
          id ∈ Dict.keys (tasks (coordinator (start chain_ACB))) ->
          exists te',
            Dict.get id (tasks (coordinator w')) = Some te'
            /\ (status te' = COMPLETED \/ status te' = FAILED)
            /\ is_Some (end_time te')).
Proof.
  apply (execute_workflow_runs_every_task_once sample_id A_fails
           (start chain_ACB) [["A"; "C"]; ["B"]]
           {| tasks := tasks chain_ACB; execution_order := ["A"; "C"; "B"] |}).
  - reflexivity.
  - intros id te Hget. simpl in Hget.
    repeat (destruct (decide _) in Hget; [injection Hget as <-; reflexivity |]).
    discriminate.
Defined.

(** Where an instance cannot be built, the run is another.  [M] holds its
    loan details as a string and shares level 0 with [Z]; [X], which depends
    on [M], is in level 1.  [execute_task] raises on [M] and leaves it
    [PENDING]; [execute_workflow] catches the exception and cancels [X],
    and then runs [X] all the same. *)
Lemma malformed_task_cancels_dependent :
  constructible malformed_definition = false
  /\ (fst <$> resolve_dependencies malformed_first)
     = Some (Ok [["M"; "Z"]; ["X"]])
  /\ exists w',
       execute_workflow sample_id all_succeed (start malformed_first)
       = Some (Ok tt, w')
       /\ history w'
          = [("Z", RUNNING); ("Z", COMPLETED); ("X", CANCELLED);
             ("X", RUNNING); ("X", COMPLETED)]
       /\ outcome_of "M" w' = Some (PENDING, None, None).
Proof.
  split; [reflexivity |]. split; [reflexivity |].
  eexists. split; [reflexivity |]. split; reflexivity.
Qed.

(** ** [get_workflow_status] *)

Lemma status_value_inj (s t : TaskStatus) :
  status_value s = status_value t -> s = t.
Proof. destruct s, t; simpl; intros H; try done; discriminate. Qed.

Lemma increment_get (k key : string) (counts : Dict.t Z) :
  Dict.get k (increment key counts)
  = if decide (k = key) then Some (default 0 (Dict.get key counts) + 1)%Z
    else Dict.get k counts.
Proof.
  unfold increment. destruct (decide (k = key)) as [->|Hne].
  - apply dict_get_set_eq.
  - by apply dict_get_set_ne.
Qed.

Lemma increment_keys (key : string) (counts : Dict.t Z) :
  key ∈ Dict.keys counts -> Dict.keys (increment key counts) = Dict.keys counts.
Proof. apply dict_keys_set_mem. Qed.

Lemma count_status_cons (s : TaskStatus) (kv : string * TaskExecution)
    (ts : Dict.t TaskExecution) :
  count_status s (kv :: ts)
  = ((if decide (status (snd kv) = s) then 1 else 0) + count_status s ts)%Z.
Proof.
  unfold count_status. simpl.
  destruct (decide (status (snd kv) = s)) as [Heq|Hne].
  - rewrite bool_decide_eq_true_2 by done. simpl. lia.
  - rewrite bool_decide_eq_false_2 by done. lia.
Qed.

Lemma counted_tasks (ts : Dict.t TaskExecution) :
  forall counts s n,
    Dict.get (status_value s) counts = Some n ->
    Dict.get (status_value s)
      (foldl (fun c kv => increment (status_value (status (snd kv))) c) counts ts)
    = Some (n + count_status s ts)%Z.
Proof.
  induction ts as [|kv ts IH]; intros counts s n Hget; simpl.
  - unfold count_status. simpl. rewrite Hget. f_equal; lia.
  - rewrite count_status_cons.
    destruct (decide (status (snd kv) = s)) as [Heq|Hne].
    + rewrite (IH _ s (n + 1)%Z).
      * f_equal; lia.
      * rewrite increment_get, Heq, decide_True by done. by rewrite Hget.
    + rewrite (IH _ s n).
      * f_equal; lia.
      * rewrite increment_get, decide_False; [done |].
        intros Heq. apply Hne. symmetry. by apply status_value_inj.
Qed.

Lemma counted_keys (ts : Dict.t TaskExecution) :
  forall counts,
    (forall s, status_value s ∈ Dict.keys counts) ->
    Dict.keys
      (foldl (fun c kv => increment (status_value (status (snd kv))) c) counts ts)
    = Dict.keys counts.
Proof.
  induction ts as [|kv ts IH]; intros counts Hall; simpl; [done |].
  rewrite IH.
  - by apply increment_keys.
  - intros s. by rewrite increment_keys.
Qed.

Lemma count_status_total (ts : Dict.t TaskExecution) :
  (count_status PENDING ts + count_status RUNNING ts + count_status COMPLETED ts
   + count_status FAILED ts + count_status CANCELLED ts
   + count_status RETRYING ts)%Z
  = Z.of_nat (length ts).
Proof.
  induction ts as [|kv ts IH]; [done |].
  rewrite !count_status_cons. simpl length. rewrite Nat2Z.inj_succ, <- IH.
  destruct (status (snd kv)); simpl; lia.
Qed.

Lemma count_status_bounds (s : TaskStatus) (ts : Dict.t TaskExecution) :
  (0 <= count_status s ts <= Z.of_nat (length ts))%Z.
Proof.
  unfold count_status. split; [lia |].
  apply inj_le. apply List.filter_length_le.
Qed.

(** X7.  [get_workflow_status] reports the number of registered tasks as
    the total and, for each of the six statuses, under the status name, the
    number of tasks in that status; these six numbers add up to the total.
    The success rate is the completed share of the tasks, the number of
    [COMPLETED] tasks divided by the number of tasks, which lies between 0
    and 1; it is 0 for an empty task set. *)
Theorem get_workflow_status_counts (self : TaskCoordinator) :
  let report := get_workflow_status self in
  total_tasks report = Z.of_nat (length (tasks self))
  /\ Dict.keys (status_breakdown report) = map status_value all_statuses
  /\ (forall s,
        Dict.get (status_value s) (status_breakdown report)
        = Some (count_status s (tasks self)))
  /\ completed_tasks report = count_status COMPLETED (tasks self)
  /\ failed_tasks report = count_status FAILED (tasks self)
  /\ (count_status PENDING (tasks self) + count_status RUNNING (tasks self)
      + count_status COMPLETED (tasks self) + count_status FAILED (tasks self)
      + count_status CANCELLED (tasks self)
      + count_status RETRYING (tasks self))%Z
     = total_tasks report
  /\ (0 <= success_rate report)%Q /\ (success_rate report <= 1)%Q
  /\ (tasks self = [] -> success_rate report = 0%Q)
  /\ (tasks self <> [] ->
      success_rate report
      = (inject_Z (count_status COMPLETED (tasks self))
         / inject_Z (Z.of_nat (length (tasks self))))%Q)
  /\ reported_execution_order report = execution_order self.
Proof.
  assert (Hcount : forall s,
            Dict.get (status_value s) (status_breakdown (get_workflow_status self))
            = Some (count_status s (tasks self))).
  { intros s. unfold get_workflow_status. simpl status_breakdown.
    rewrite (counted_tasks _ _ s 0%Z); [f_equal; lia |]. by destruct s. }
  simpl. split; [done |]. split.
  { rewrite counted_keys; [done |]. intros s. simpl.
    rewrite !elem_of_cons. destruct s; simpl; tauto. }
  split; [exact Hcount |].
  pose proof (Hcount COMPLETED) as Hc. pose proof (Hcount FAILED) as Hf.
  unfold get_workflow_status in Hc, Hf. simpl in Hc, Hf.
  rewrite Hc, Hf. simpl.
  split; [done |]. split; [done |]. split; [apply count_status_total |].
  pose proof (count_status_bounds COMPLETED (tasks self)) as [Hlo Hhi].
  destruct (Z.ltb_spec 0 (Z.of_nat (length (tasks self)))) as [Hpos|Hzero].
  - assert (Hq : (0 < inject_Z (Z.of_nat (length (tasks self))))%Q)
      by (by rewrite <- (Zlt_Qlt 0)).
    split; [| split; [| split; [| split]]]; try done.
    + apply Qle_shift_div_l; [done |]. rewrite Qmult_0_l.
      by rewrite <- (Zle_Qle 0).
    + apply Qle_shift_div_r; [done |]. rewrite Qmult_1_l.
      by rewrite <- Zle_Qle.
    + intros Hnil. rewrite Hnil in Hpos. simpl in Hpos. lia.
  - split; [| split; [| split; [| split]]]; try done.
    intros Hne. destruct (tasks self); [done | simpl in Hzero; lia].
Qed.

Lemma get_workflow_status_counts_witness :
  success_rate (get_workflow_status new_coordinator) = 0%Q
  /\ success_rate (get_workflow_status (finished A_fails chain_ACB)) = (2 # 3)%Q
  /\ completed_tasks (get_workflow_status (finished A_fails chain_ACB)) = 2%Z
  /\ failed_tasks (get_workflow_status (finished A_fails chain_ACB)) = 1%Z.
Proof.
  pose proof (get_workflow_status_counts new_coordinator)
    as (_ & _ & _ & _ & _ & _ & _ & _ & Hempty & _).
  pose proof (get_workflow_status_counts (finished A_fails chain_ACB))
    as (_ & _ & _ & Hcompleted & Hfailed & _ & _ & _ & _ & Hrate & _).
  split; [apply Hempty; reflexivity |].
  split; [rewrite Hrate; [reflexivity | discriminate] |].
  split; [rewrite Hcompleted | rewrite Hfailed]; reflexivity.
Defined.

(** ** More on results and validation *)

Lemma check_criteria_Some_Ok (criteria : Dict.t pyval) (d : gmap string pyval) :
  exists b, check_criteria criteria (Some d) = Ok b.
Proof.
  induction criteria as [|[k0 e0] criteria IH]; simpl; [eauto |].
  destruct (d !! k0); [destruct (py_neb _ _) |]; eauto.
Qed.

(** X9.  For results that carry data, [validate_result] depends only on the
    success flag and on the data values stored under the criteria keys:
    listing the criteria in another order, or changing the result under
    other keys or in other fields, does not change its answer. *)
Theorem validate_result_reads_only_criteria
    (self self' : BaseTask) (r r' : AgentResult) (d d' : gmap string pyval) :
  success_criteria (definition self) ≡ₚ success_criteria (definition self') ->
  success r = success r' ->
  data r = Some d ->
  data r' = Some d' ->
  (forall k, k ∈ Dict.keys (success_criteria (definition self)) -> d !! k = d' !! k) ->
  validate_result self r = validate_result self' r'.
Proof.
  intros Hperm Hs Hd Hd' Hsame. unfold validate_result.
  rewrite <- Hs, Hd, Hd'. destruct (success r); simpl; [| done].
  destruct (check_criteria_Some_Ok (success_criteria (definition self)) d)
    as [b Hb].
  destruct (check_criteria_Some_Ok (success_criteria (definition self')) d')
    as [b' Hb'].
  assert (Hiff : check_criteria (success_criteria (definition self)) (Some d)
                 = Ok true
                 <-> check_criteria (success_criteria (definition self')) (Some d')
                     = Ok true).
  { rewrite !check_criteria_true_iff. split; intros H k e v Hin Hv.
    - rewrite <- Hperm in Hin. apply (H k e v Hin). rewrite Hsame; [done |].
      unfold Dict.keys. apply list_elem_of_fmap. by exists (k, e).
    - apply (H k e v); [by rewrite <- Hperm |]. rewrite <- Hsame; [done |].
      unfold Dict.keys. apply list_elem_of_fmap. by exists (k, e). }
  rewrite Hb, Hb' in *. destruct Hiff as [H1 H2].
  destruct b, b'; try done.
  - by specialize (H1 eq_refl).
  - by specialize (H2 eq_refl).
Qed.

Lemma validate_result_reads_only_criteria_witness :
  validate_result (DataCollectionTask credit_ids) three_sources
  = validate_result reordered_collection three_sources_and_more.
Proof.
  apply (validate_result_reads_only_criteria
           (DataCollectionTask credit_ids) reordered_collection
           three_sources three_sources_and_more
           {[ "data_sources_count" := PInt 3 ]}
           {[ "data_sources_count" := PInt 3; "elapsed" := PInt 12 ]}).
  - simpl. apply perm_swap.
  - reflexivity.
  - reflexivity.
  - reflexivity.
  - intros k Hk. simpl in Hk. rewrite !elem_of_cons, elem_of_nil in Hk.
    destruct Hk as [->|[->|[]]]; reflexivity.
Defined.

(** ** The runs of [_retry_operation] *)

Section RetryRuns.

Variable operation : nat -> op_outcome.

Lemma attempt_once_failed (k : nat) (a : agent) :
  op_failed (operation k) = true ->
  (Z.of_nat k < agent_max_retries (config a))%Z ->
  pause_allowed a k ->
  attempt_once operation k a = (Ok None, failed_attempt k a).
Proof.
  intros Hfail Hlt [Hp Hs]. unfold attempt_once, on_exception, back_off,
    compute_sleep_time, time_sleep, failed_attempt. simpl.
  apply Z.ltb_lt in Hlt.
  destruct (operation k) as [r|e]; simpl in *.
  - apply negb_true_iff in Hfail. by rewrite Hfail, Hlt, Hp, Hs.
  - by rewrite Hlt, Hp, Hs.
Qed.

Lemma failed_attempts_fields (m : nat) :
  forall k0 a,
    let a' := foldl (fun b k => failed_attempt k b) a (seq k0 m) in
    config a' = config a
    /\ calls a'
       = calls a
         ++ flat_map (fun k => [Invoke k; Sleep (sleep_time (config a) k)])
                     (seq k0 m)
    /\ (m = 0 -> a' = a)
    /\ (0 < m -> retry_count a' = Z.of_nat (k0 + m - 1)).
Proof.
  induction m as [|m IH]; intros k0 a; simpl.
  - rewrite app_nil_r. repeat split; try done. lia.
  - destruct (IH (S k0) (failed_attempt k0 a)) as (Hc & Hcalls & Hzero & Hpos).
    simpl in Hc, Hcalls. split; [done |]. split.
    + rewrite Hcalls. simpl. by rewrite <- !app_assoc.
    + split; [discriminate |]. intros _.
      destruct m as [|m].
      * rewrite Hzero by done. simpl. f_equal. lia.
      * rewrite Hpos by lia. f_equal. lia.
Qed.

Lemma retry_loop_failed_prefix (m : nat) :
  forall k0 rest a,
    (forall k, k0 <= k < k0 + m ->
       op_failed (operation k) = true
       /\ (Z.of_nat k < agent_max_retries (config a))%Z
       /\ pause_allowed a k) ->
    retry_loop operation (seq k0 m ++ rest) a
    = retry_loop operation rest (foldl (fun b k => failed_attempt k b) a (seq k0 m)).
Proof.
  induction m as [|m IH]; intros k0 rest a Hall; simpl; [done |].
  destruct (Hall k0 ltac:(lia)) as (Hf & Hlt & Hpos).
  rewrite (attempt_once_failed k0 a Hf Hlt Hpos).
  apply IH. intros k Hk. unfold pause_allowed. simpl. apply Hall. lia.
Qed.

Lemma retry_status_after (j : nat) (a : agent) :
  agent_status
    (begin_attempt j (foldl (fun b k => failed_attempt k b) a (seq 0 j)))
  = if decide (j = 0) then agent_status a else AgentStatus.RETRYING.
Proof.
  destruct j as [|j]; [done |]. simpl. by destruct j.
Qed.

End RetryRuns.

Lemma invocations_backoff_calls (c : AgentConfig) (j : nat) :
  invocations (backoff_calls c j) = S j.
Proof.
  unfold backoff_calls, invocations. rewrite List.filter_app, length_app.
  simpl. generalize 0 at 1. induction j as [|j IH]; intros k0; simpl;
    [done |]. specialize (IH (S k0)). lia.
Qed.

(** X10.  When the operation fails at the attempts before [j], succeeds at
    attempt [j <= max_retries], and the interpreter lets the loop pause
    after each attempt before [j] (the delay can be computed and
    [time.sleep] takes it: it is not negative and within the range of the
    clock), [_retry_operation] returns the result of attempt [j].  It has called the
    operation [j + 1] times, slept [retry_delay * retry_backoff ** k] after
    each failed attempt [k], and leaves [retry_count = j] and, when
    [j > 0], the status [RETRYING]. *)
Theorem retry_operation_returns_first_success
    (operation : nat -> op_outcome) (a : agent) (j : nat) (r : AgentResult) :
  (Z.of_nat j <= agent_max_retries (config a))%Z ->
  (forall k, k < j -> op_failed (operation k) = true /\ pause_allowed a k) ->
  operation j = OpReturns r ->
  success r = true ->
  fst (_retry_operation operation a) = Ok r
  /\ calls (snd (_retry_operation operation a))
     = calls a ++ backoff_calls (config a) j
  /\ invocations (backoff_calls (config a) j) = S j
  /\ retry_count (snd (_retry_operation operation a)) = Z.of_nat j
  /\ agent_status (snd (_retry_operation operation a))
     = (if decide (j = 0) then agent_status a else AgentStatus.RETRYING)
  /\ config (snd (_retry_operation operation a)) = config a.
Proof.
  intros Hj Hfail Hop Hs. unfold _retry_operation, attempts_of.
  replace (Z.to_nat (agent_max_retries (config a) + 1))
    with (j + S (Z.to_nat (agent_max_retries (config a)) - j)) by lia.
  rewrite seq_app. simpl seq.
  rewrite retry_loop_failed_prefix.
  2: { intros k Hk. destruct (Hfail k ltac:(lia)) as [Hf Hp].
       split; [done |]. split; [lia | done]. }
  destruct (failed_attempts_fields j 0 a) as (Hc & Hcalls & _ & _).
  simpl in Hc, Hcalls. simpl retry_loop. unfold attempt_once.
  rewrite Hop, Hs. simpl.
  split; [done |]. split.
  { rewrite Hcalls. unfold backoff_calls. by rewrite <- app_assoc. }
  split; [apply invocations_backoff_calls |].
  split; [done |]. split; [| done].
  apply (retry_status_after j a).
Qed.

Lemma retry_operation_returns_first_success_witness :
  fst (_retry_operation third_time_lucky (idle_agent default_config)) = Ok succeeded
  /\ calls (snd (_retry_operation third_time_lucky (idle_agent default_config)))
     = calls (idle_agent default_config) ++ backoff_calls default_config 2
  /\ invocations (backoff_calls default_config 2) = 3
  /\ retry_count (snd (_retry_operation third_time_lucky (idle_agent default_config)))
     = 2%Z
  /\ agent_status (snd (_retry_operation third_time_lucky (idle_agent default_config)))
     = AgentStatus.RETRYING
  /\ config (snd (_retry_operation third_time_lucky (idle_agent default_config)))
     = default_config.
Proof.
  apply (retry_operation_returns_first_success third_time_lucky
           (idle_agent default_config) 2 succeeded).
  - simpl. lia.
  - intros k Hk. destruct k as [|[|k]]; [| | lia]; repeat split.
  - reflexivity.
  - reflexivity.
Defined.

(** X11.  When every attempt up to [max_retries = N] fails and the
    interpreter lets the loop pause after each attempt before [N] (the delay
    can be computed and [time.sleep] takes it), [_retry_operation] gives up
    after [N + 1] calls and [N] sleeps.  It returns the ["Max retries exceeded"] failure when the
    last attempt returned, and the [_handle_error] failure carrying the
    exception text when the last attempt raised; the failed results that the
    operation returned are dropped. *)
Theorem retry_operation_gives_up (operation : nat -> op_outcome) (a : agent) :
  (0 <= agent_max_retries (config a))%Z ->
  (forall k, k <= Z.to_nat (agent_max_retries (config a)) ->
     op_failed (operation k) = true) ->
  (forall k, k < Z.to_nat (agent_max_retries (config a)) ->
     pause_allowed a k) ->
  fst (_retry_operation operation a)
  = Ok match operation (Z.to_nat (agent_max_retries (config a))) with
       | OpReturns _ => max_retries_exceeded
       | OpRaises e => _handle_error e "Retry operation"
       end
  /\ calls (snd (_retry_operation operation a))
     = calls a
       ++ backoff_calls (config a) (Z.to_nat (agent_max_retries (config a)))
  /\ invocations
       (backoff_calls (config a) (Z.to_nat (agent_max_retries (config a))))
     = S (Z.to_nat (agent_max_retries (config a)))
  /\ retry_count (snd (_retry_operation operation a))
     = agent_max_retries (config a).
Proof.
  intros HN Hfail Hpos. unfold _retry_operation, attempts_of.
  set (N := Z.to_nat (agent_max_retries (config a))) in *.
  replace (Z.to_nat (agent_max_retries (config a) + 1)) with (N + 1) by lia.
  rewrite seq_app. simpl seq.
  rewrite retry_loop_failed_prefix.
  2: { intros k Hk. split; [apply Hfail; lia |].
       split; [lia | apply Hpos; lia]. }
  destruct (failed_attempts_fields N 0 a) as (Hc & Hcalls & _ & _).
  simpl in Hc, Hcalls. simpl retry_loop.
  unfold attempt_once, on_exception. simpl. rewrite Hc.
  assert (Hlast : (Z.of_nat N <? agent_max_retries (config a))%Z = false)
    by (apply Z.ltb_ge; lia).
  pose proof (Hfail N ltac:(lia)) as HfN.
  destruct (operation N) as [r|e]; simpl in *.
  - apply negb_true_iff in HfN. rewrite HfN, Hlast. simpl.
    split; [done |]. split.
    { rewrite Hcalls. unfold backoff_calls. by rewrite <- app_assoc. }
    split; [apply invocations_backoff_calls | lia].
  - rewrite Hlast. simpl.
    split; [done |]. split.
    { rewrite Hcalls. unfold backoff_calls. by rewrite <- app_assoc. }
    split; [apply invocations_backoff_calls | lia].
Qed.

Lemma retry_operation_gives_up_witness :
  fst (_retry_operation always_raises (idle_agent default_config))
  = Ok (_handle_error (Exception "connection refused") "Retry operation")
  /\ calls (snd (_retry_operation always_raises (idle_agent default_config)))
     = calls (idle_agent default_config) ++ backoff_calls default_config 3
  /\ invocations (backoff_calls default_config 3) = 4
  /\ retry_count (snd (_retry_operation always_raises (idle_agent default_config)))
     = 3%Z.
Proof.
  apply (retry_operation_gives_up always_raises (idle_agent default_config)).
  - simpl. lia.
  - reflexivity.
  - intros k Hk. simpl in Hk. destruct k as [|[|[|k]]]; [| | | lia]; by split.
Defined.

(** ** [BaseAgent.run] *)

Section RunFacts.

Variable operation : nat -> op_outcome.

Lemma attempt_once_result (k : nat) (a : agent) :
  match fst (attempt_once operation k a) with
  | Ok (Some r) =>
      (operation k = OpReturns r /\ success r = true)
      \/ (success r = false /\ is_Some (error r))
  | Ok None => op_failed (operation k) = true
  | Raise _ => True
  end.
Proof.
  unfold attempt_once, on_exception, back_off, compute_sleep_time, time_sleep.
  simpl.
  destruct (operation k) as [r|e]; simpl.
  - destruct (success r) eqn:Hs; simpl; [by left |].
    destruct (Z.of_nat k <? agent_max_retries (config a))%Z eqn:Hlt; simpl;
      [| done].
    destruct (power_raises _ _ _) eqn:Hp; simpl.
    { by rewrite Hlt, Hp. }
    destruct (sleep_raises _ _) eqn:Hsl; simpl; [| done].
    by rewrite Hlt, Hp, Hsl.
  - destruct (Z.of_nat k <? agent_max_retries (config a))%Z; simpl.
    + destruct (power_raises _ _ _); simpl; [done |].
      by destruct (sleep_raises _ _).
    + right. split; [done | eauto].
Qed.

Lemma retry_loop_result (n : nat) :
  forall k0 a,
    match fst (retry_loop operation (seq k0 n) a) with
    | Ok r =>
        (success r = true
         /\ exists k, k0 <= k < k0 + n /\ operation k = OpReturns r
                      /\ forall j, k0 <= j < k -> op_failed (operation j) = true)
        \/ (success r = false /\ is_Some (error r))
    | Raise _ => True
    end.
Proof.
  induction n as [|n IH]; intros k0 a; simpl.
  - right. split; [done | eauto].
  - pose proof (attempt_once_result k0 a) as Hatt.
    destruct (attempt_once operation k0 a) as [[[r|]|e] a1]; simpl in *;
      [| | done].
    + destruct Hatt as [[Hop Hs]|Hfail]; [left | by right].
      split; [done |]. exists k0. split; [lia |]. split; [done |]. intros j Hj. lia.
    + specialize (IH (S k0) a1).
      destruct (fst (retry_loop operation (seq (S k0) n) a1)) as [r|e]; [| done].
      destruct IH as [(Hs & k & Hk & Hop & Hbefore)|Hfail]; [left | by right].
      split; [done |]. exists k. split; [lia |]. split; [done |].
      intros j Hj. destruct (decide (j = k0)) as [->|Hne]; [done |].
      apply Hbefore. lia.
Qed.

End RunFacts.

(** X12.  [BaseAgent.run] returns a result in every case.  When a health
    check fails it returns the ["Pre-execution checks failed"] failure
    without calling the operation and leaves the agent [RUNNING].
    Otherwise the agent ends [SUCCESS] exactly when the result is
    successful, and [FAILED] if not.  A successful result is the one the
    operation returned at its first successful attempt, within the retry
    budget; an unsuccessful result always carries an error message. *)
Theorem run_result_and_status
    (customer_ok market_ok : bool) (operation : nat -> op_outcome) (a : agent) :
  let r := fst (run customer_ok market_ok operation a) in
  let a' := snd (run customer_ok market_ok operation a) in
  (customer_ok && market_ok = false ->
   r = pre_execution_failed /\ calls a' = calls a
   /\ agent_status a' = AgentStatus.RUNNING)
  /\ (customer_ok && market_ok = true ->
      agent_status a'
      = if success r then AgentStatus.SUCCESS else AgentStatus.FAILED)
  /\ (success r = true ->
      exists k,
        (Z.of_nat k <= agent_max_retries (config a))%Z
        /\ operation k = OpReturns r
        /\ forall j, j < k -> op_failed (operation j) = true)
  /\ (success r = false -> is_Some (error r)).
Proof.
  unfold run, _pre_execute, health_check_all. simpl.
  rewrite andb_true_r.
  replace (customer_ok && (market_ok && (customer_ok && market_ok)))
    with (customer_ok && market_ok) by (by destruct customer_ok, market_ok).
  destruct (customer_ok && market_ok) eqn:Hh; simpl.
  2: { split; [done |]. split; [done |]. split; [discriminate | eauto]. }
  split; [done |].
  set (a1 := {| config := config a; agent_status := AgentStatus.RUNNING;
                retry_count := 0; host := host a; calls := calls a |}).
  pose proof (retry_loop_result operation
                (Z.to_nat (agent_max_retries (config a1) + 1)) 0 a1) as Hres.
  unfold _retry_operation, attempts_of.
  destruct (retry_loop operation
              (seq 0 (Z.to_nat (agent_max_retries (config a1) + 1))) a1)
    as [[r|e] a2]; simpl in *.
  - split; [done |]. split.
    + intros Hs. destruct Hres as [(_ & k & Hk & Hop & Hbefore)|[Hf _]];
        [| congruence].
      exists k. split; [lia |]. split; [done |]. intros j Hj. apply Hbefore. lia.
    + intros Hs. destruct Hres as [(Hs' & _)|[_ He]]; [congruence | done].
  - split; [done |]. split; [discriminate | eauto].
Qed.

Lemma run_result_and_status_witness :
  (fst (run true false third_time_lucky (idle_agent default_config))
   = pre_execution_failed
   /\ calls (snd (run true false third_time_lucky (idle_agent default_config)))
      = calls (idle_agent default_config)
   /\ agent_status (snd (run true false third_time_lucky (idle_agent default_config)))
      = AgentStatus.RUNNING)
  /\ agent_status (snd (run true true third_time_lucky (idle_agent default_config)))
     = AgentStatus.SUCCESS.
Proof.
  split.
  - apply (proj1 (run_result_and_status true false third_time_lucky
                    (idle_agent default_config))).
    reflexivity.
  - apply (proj1 (proj2 (run_result_and_status true true third_time_lucky
                           (idle_agent default_config)))).
    reflexivity.
Defined.

(** ** [AgentOrchestrator.run_workflow] *)

Lemma run_workflow_from_length (agents : list string)
    (agent_run : nat -> string -> AgentResult) (workflow : list workflow_step) :
  forall i, length (run_workflow_from agents agent_run i workflow) <= length workflow.
Proof.
  induction workflow as [|step rest IH]; intros i; simpl; [done |].
  destruct (step_agent_id step) as [id|]; [| specialize (IH (S i)); lia].
  destruct (bool_decide (id = "")); [specialize (IH (S i)); lia |].
  destruct (negb _ && _); simpl; [lia | specialize (IH (S i)); lia].
Qed.

Lemma run_workflow_from_failure_last (agents : list string)
    (agent_run : nat -> string -> AgentResult) (workflow : list workflow_step) :
  (forall step, step ∈ workflow -> stop_on_failure step = true) ->
  forall i p r,
    run_workflow_from agents agent_run i workflow !! p = Some r ->
    success r = false ->
    S p = length (run_workflow_from agents agent_run i workflow).
Proof.
  induction workflow as [|step rest IH]; intros Hstop i p r; simpl;
    [by rewrite lookup_nil |].
  assert (Hrest : forall s, s ∈ rest -> stop_on_failure s = true)
    by (intros s Hs; apply Hstop; by right).
  destruct (step_agent_id step) as [id|]; [| by apply IH].
  destruct (bool_decide (id = "")); [by apply IH |].
  rewrite (Hstop step) by left. rewrite andb_true_r.
  destruct (success (run_agent agents agent_run i id)) eqn:Hs; simpl.
  - destruct p as [|p]; simpl.
    + intros [= <-]. congruence.
    + intros Hp Hf. f_equal. by eapply IH.
  - destruct p as [|p]; simpl; [done |]. by rewrite lookup_nil.
Qed.

(** X13.  [run_workflow] returns at most one result per step.  When every
    step keeps the default [stop_on_failure], a failed result can only be
    the last one: every result before it is a success and no step after it
    was run.  A step that names an agent that is not registered gives the
    ["Agent not found"] failure. *)
Theorem run_workflow_stops_at_failure
    (agents : list string) (agent_run : nat -> string -> AgentResult)
    (workflow : list workflow_step) :
  length (run_workflow agents agent_run workflow) <= length workflow
  /\ ((forall step, step ∈ workflow -> stop_on_failure step = true) ->
      forall p r,
        run_workflow agents agent_run workflow !! p = Some r ->
        success r = false ->
        S p = length (run_workflow agents agent_run workflow))
  /\ (forall i agent_id,
        agent_id ∉ agents ->
        run_agent agents agent_run i agent_id = agent_not_found agent_id).
Proof.
  split; [apply run_workflow_from_length |]. split.
  - intros Hstop. by apply run_workflow_from_failure_last.
  - intros i id Hid. unfold run_agent. by rewrite bool_decide_eq_false_2.
Qed.

Lemma run_workflow_stops_at_failure_witness :
  S 1 = length (run_workflow ["collector"; "analyst"; "reporter"]
                  analyst_fails three_steps)
  /\ run_agent ["collector"] analyst_fails 0 "analyst" = agent_not_found "analyst".
Proof.
  split.
  - apply (proj1 (proj2 (run_workflow_stops_at_failure
                           ["collector"; "analyst"; "reporter"]
                           analyst_fails three_steps))
             ltac:(intros step Hstep; unfold three_steps in Hstep;
                   rewrite !elem_of_cons, elem_of_nil in Hstep;
                   destruct Hstep as [->|[->|[->|[]]]]; reflexivity)
             1 (failed_with "no data")); reflexivity.
  - apply (proj2 (proj2 (run_workflow_stops_at_failure
                           ["collector"] analyst_fails three_steps))).
    rewrite list_elem_of_singleton. discriminate.
Defined.

(** ** [run_credit_workflow] *)

Section CreditWorkflowFacts.

Variable data_agent risk_agent doc_agent report_agent : option AgentResult.

Lemma data_collection_step_Ok (results : Dict.t AgentResult) :
  data_collection_step data_agent [] = Ok results ->
  results = []
  \/ exists x, data_agent = Some x /\ results = [("data_collection", x)].
Proof.
  unfold data_collection_step. destruct data_agent as [x|]; [| intros [= <-]; by left].
  destruct (sources_summary x); [| discriminate]. intros [= <-]. right. eauto.
Qed.

Lemma risk_analysis_step_Ok (r1 results : Dict.t AgentResult) :
  risk_analysis_step risk_agent r1 = Ok results ->
  results = r1
  \/ (step_succeeded "data_collection" r1 = true
      /\ exists x, risk_agent = Some x /\ results = Dict.set "risk_analysis" x r1).
Proof.
  unfold risk_analysis_step.
  destruct (step_succeeded "data_collection" r1); [| intros [= <-]; by left].
  destruct risk_agent as [x|]; [| intros [= <-]; by left].
  destruct (field_summary x "risk_level"); [| discriminate].
  intros [= <-]. right. eauto.
Qed.

Lemma documentation_step_Ok (r2 results : Dict.t AgentResult) :
  documentation_step doc_agent r2 = Ok results ->
  results = r2
  \/ (step_succeeded "risk_analysis" r2 = true
      /\ exists x, doc_agent = Some x /\ results = Dict.set "documentation" x r2).
Proof.
  unfold documentation_step.
  destruct (step_succeeded "risk_analysis" r2); [| intros [= <-]; by left].
  destruct doc_agent as [x|]; [| intros [= <-]; by left].
  destruct (field_summary x "compliance_status"); [| discriminate].
  intros [= <-]. right. eauto.
Qed.

Lemma reporting_step_Ok (r3 results : Dict.t AgentResult) :
  reporting_step report_agent r3 = Ok results ->
  results = r3
  \/ (step_succeeded "documentation" r3 = true
      /\ step_succeeded "risk_analysis" r3 = true
      /\ exists x, report_agent = Some x /\ results = Dict.set "reporting" x r3).
Proof.
  unfold reporting_step.
  destruct (step_succeeded "documentation" r3); simpl; [| intros [= <-]; by left].
  destruct (step_succeeded "risk_analysis" r3); simpl; [| intros [= <-]; by left].
  destruct report_agent as [x|]; [| intros [= <-]; by left].
  destruct (field_summary x "report_type"); [| discriminate].
  intros [= <-]. right. eauto.
Qed.

(** The dictionaries that [run_credit_workflow] can return. *)
Lemma run_credit_workflow_shapes (results : Dict.t AgentResult) :
  run_credit_workflow data_agent risk_agent doc_agent report_agent = Ok results ->
  results = []
  \/ (exists a, data_agent = Some a /\ results = [("data_collection", a)])
  \/ (exists a b,
        data_agent = Some a /\ risk_agent = Some b /\ success a = true
        /\ results = [("data_collection", a); ("risk_analysis", b)])
  \/ (exists a b c,
        data_agent = Some a /\ risk_agent = Some b /\ doc_agent = Some c
        /\ success a = true /\ success b = true
        /\ results = [("data_collection", a); ("risk_analysis", b);
                      ("documentation", c)])
  \/ (exists a b c d,
        data_agent = Some a /\ risk_agent = Some b /\ doc_agent = Some c
        /\ report_agent = Some d
        /\ success a = true /\ success b = true /\ success c = true
        /\ results = [("data_collection", a); ("risk_analysis", b);
                      ("documentation", c); ("reporting", d)]).
Proof.
  unfold run_credit_workflow.
  destruct (data_collection_step data_agent []) as [r1|] eqn:H1; [| discriminate].
  destruct (risk_analysis_step risk_agent r1) as [r2|] eqn:H2; [| discriminate].
  destruct (documentation_step doc_agent r2) as [r3|] eqn:H3; [| discriminate].
  intros H4.
  apply data_collection_step_Ok in H1. apply risk_analysis_step_Ok in H2.
  apply documentation_step_Ok in H3. apply reporting_step_Ok in H4.
  destruct H1 as [->|(a & Ha & ->)].
  { destruct H2 as [->|(Hs & _)]; [| discriminate].
    destruct H3 as [->|(Hs & _)]; [| discriminate].
    destruct H4 as [->|(Hs & _)]; [| discriminate]. by left. }
  destruct H2 as [->|(Hsa & b & Hb & ->)].
  { destruct H3 as [->|(Hs & _)]; [| discriminate].
    destruct H4 as [->|(Hs & _)]; [| discriminate]. right. left. eauto. }
  simpl in Hsa.
  destruct H3 as [->|(Hsb & c & Hc & ->)].
  { destruct H4 as [->|(Hs & _)]; [| discriminate].
    right. right. left. exists a, b. eauto. }
  simpl in Hsb.
  destruct H4 as [->|(Hsc & _ & d & Hd & ->)].
  { right. right. right. left. exists a, b, c. repeat split; eauto. }
  simpl in Hsc.
  right. right. right. right. exists a, b, c, d. repeat split; eauto.
Qed.

End CreditWorkflowFacts.

(** X14.  When [run_credit_workflow] returns, its results cover an initial
    run of the steps data collection, risk analysis, documentation,
    reporting, each stored result is the one the step's agent returned,
    and every result before the last is a success: a step is run only
    after all the steps before it succeeded. *)
Theorem run_credit_workflow_gates
    (data_agent risk_agent doc_agent report_agent : option AgentResult)
    (results : Dict.t AgentResult) :
  run_credit_workflow data_agent risk_agent doc_agent report_agent = Ok results ->
  (exists n, Dict.keys results = take n credit_steps)
  /\ (forall k x,
        Dict.get k results = Some x -> success x = false ->
        last (Dict.keys results) = Some k)
  /\ (forall x, Dict.get "data_collection" results = Some x -> data_agent = Some x)
  /\ (forall x, Dict.get "risk_analysis" results = Some x -> risk_agent = Some x)
  /\ (forall x, Dict.get "documentation" results = Some x -> doc_agent = Some x)
  /\ (forall x, Dict.get "reporting" results = Some x -> report_agent = Some x).
Proof.
  intros Hrun. apply run_credit_workflow_shapes in Hrun.
  destruct Hrun
    as [->|[(a & Ha & ->)|[(a & b & Ha & Hb & Hsa & ->)
       |[(a & b & c & Ha & Hb & Hc & Hsa & Hsb & ->)
        |(a & b & c & d & Ha & Hb & Hc & Hd & Hsa & Hsb & Hsc & ->)]]]].
  - split; [by exists 0 |]. repeat split; intros; discriminate.
  - split; [by exists 1 |]. split.
    { intros k x Hget Hs. simpl in Hget.
      destruct (decide _) as [->|] in Hget; [done | discriminate]. }
    repeat split; intros x; simpl; intros [= <-]; done.
  - split; [by exists 2 |]. split.
    { intros k x Hget Hs. simpl in Hget.
      repeat (destruct (decide _) as [->|] in Hget;
              [injection Hget as <-; try congruence; done |]).
      discriminate. }
    repeat split; intros x; simpl; intros [= <-]; done.
  - split; [by exists 3 |]. split.
    { intros k x Hget Hs. simpl in Hget.
      repeat (destruct (decide _) as [->|] in Hget;
              [injection Hget as <-; try congruence; done |]).
      discriminate. }
    repeat split; intros x; simpl; intros [= <-]; done.
  - split; [by exists 4 |]. split.
    { intros k x Hget Hs. simpl in Hget.
      repeat (destruct (decide _) as [->|] in Hget;
              [injection Hget as <-; try congruence; done |]).
      discriminate. }
    repeat split; intros x; simpl; intros [= <-]; done.
Qed.

Lemma run_credit_workflow_gates_witness :
  (exists n,
     Dict.keys [("data_collection", collected);
                ("risk_analysis", failed_with "no score")]
     = take n credit_steps)
  /\ (forall k x,
        Dict.get k [("data_collection", collected);
                    ("risk_analysis", failed_with "no score")] = Some x ->
        success x = false ->
        last (Dict.keys [("data_collection", collected);
                         ("risk_analysis", failed_with "no score")]) = Some k)
  /\ (forall x,
        Dict.get "data_collection"
          [("data_collection", collected);
           ("risk_analysis", failed_with "no score")] = Some x ->
        Some collected = Some x)
  /\ (forall x,
        Dict.get "risk_analysis"
          [("data_collection", collected);
           ("risk_analysis", failed_with "no score")] = Some x ->
        Some (failed_with "no score") = Some x)
  /\ (forall x,
        Dict.get "documentation"
          [("data_collection", collected);
           ("risk_analysis", failed_with "no score")] = Some x ->
        Some succeeded = Some x)
  /\ (forall x,
        Dict.get "reporting"
          [("data_collection", collected);
           ("risk_analysis", failed_with "no score")] = Some x ->
        Some succeeded = Some x).
Proof.
  apply (run_credit_workflow_gates (Some collected)
           (Some (failed_with "no score")) (Some succeeded) (Some succeeded)).
  reflexivity.
Defined.

(** ** What a run leaves alone *)

Lemma dict_keys_definitions (w : world) :
  Dict.keys (definitions_of w) = Dict.keys (tasks (coordinator w)).
Proof.
  unfold definitions_of, Dict.keys. rewrite map_map. by apply map_ext.
Qed.

(** X15.  A call of [execute_task] that returns has written to the record
    of its own task only: the records of the other tasks, the registered
    ids and their order, every task definition and [execution_order] are as
    before, and the log of status assignments grew by [RUNNING] and the
    final status of that task. *)
Theorem execute_task_writes_own_record
    (generated_id : TaskType -> string) (work : string -> work_outcome)
    (id : string) (w w' : world) :
  execute_task generated_id work id w = Ok w' ->
  (forall k, k <> id ->
     Dict.get k (tasks (coordinator w')) = Dict.get k (tasks (coordinator w)))
  /\ Dict.keys (tasks (coordinator w')) = Dict.keys (tasks (coordinator w))
  /\ definitions_of w' = definitions_of w
  /\ execution_order (coordinator w') = execution_order (coordinator w)
  /\ exists s, history w' = history w ++ [(id, RUNNING); (id, s)]
               /\ (s = COMPLETED \/ s = FAILED).
Proof.
  intros Hex. pose proof (execute_task_definitions _ _ _ _ _ Hex) as Hdefs.
  split; [| split; [| split]].
  - unfold execute_task in Hex.
    destruct (Dict.get id (tasks (coordinator w))) as [te|]; [| discriminate].
    destruct (_create_task_instance generated_id (task_definition te));
      [| discriminate].
    injection Hex as <-. simpl. intros k Hk. by apply dict_get_set_ne.
  - by rewrite <- !dict_keys_definitions, Hdefs.
  - exact Hdefs.
  - unfold execute_task in Hex.
    destruct (Dict.get id (tasks (coordinator w))) as [te|]; [| discriminate].
    destruct (_create_task_instance generated_id (task_definition te)) as [task|];
      [| discriminate].
    injection Hex as <-. simpl. split; [done |].
    eexists. split; [reflexivity |].
    by destruct (run_body_settles task (work id)
                   (set_start_time (now w) (set_status RUNNING te)))
      as (Hst & _).
Qed.

Lemma execute_task_writes_own_record_witness :
  exists w',
    execute_task sample_id A_fails "A" (start chain_ACB) = Ok w'
    /\ Dict.keys (tasks (coordinator w'))
       = Dict.keys (tasks (coordinator (start chain_ACB))).
Proof.
  eexists. split; [reflexivity |].
  apply (proj1 (proj2 (execute_task_writes_own_record sample_id A_fails "A"
                         (start chain_ACB) _ eq_refl))).
Defined.

Lemma run_levels_definitions (generated_id : TaskType -> string)
    (work : string -> work_outcome) (levels : list (list string)) :
  forall w,
    definitions_of (foldl (run_level generated_id work) w levels)
    = definitions_of w.
Proof.
  induction levels as [|l levels IH]; intros w; simpl; [done |].
  rewrite IH. apply run_level_definitions.
Qed.

(** X16.  [execute_workflow] never adds, removes, reorders or redefines a
    task, whatever the task bodies do and whether it returns or raises:
    the registered ids and the definition under each id are the same after
    the run. *)
Theorem execute_workflow_keeps_definitions
    (generated_id : TaskType -> string) (work : string -> work_outcome)
    (w w' : world) (out : res unit) :
  execute_workflow generated_id work w = Some (out, w') ->
  definitions_of w' = definitions_of w
  /\ Dict.keys (tasks (coordinator w')) = Dict.keys (tasks (coordinator w))
  /\ (forall id te',
        Dict.get id (tasks (coordinator w')) = Some te' ->
        exists te, Dict.get id (tasks (coordinator w)) = Some te
                   /\ task_definition te' = task_definition te).
Proof.
  intros Hrun.
  assert (Hdefs : definitions_of w' = definitions_of w).
  { unfold execute_workflow, resolve_dependencies in Hrun.
    destruct (resolve_levels (tasks (coordinator w))) as [[levels|e]|];
      [| | discriminate]; injection Hrun as _ <-; [| done].
    by rewrite run_levels_definitions. }
  split; [exact Hdefs |]. split.
  - by rewrite <- !dict_keys_definitions, Hdefs.
  - intros id te' Hget.
    assert (Hd : Dict.get id (definitions_of w') = Some (task_definition te'))
      by (by rewrite definitions_of_get, Hget).
    rewrite Hdefs, definitions_of_get in Hd.
    destruct (Dict.get id (tasks (coordinator w))) as [te|]; [| discriminate].
    injection Hd as Hd. by exists te.
Qed.

Lemma execute_workflow_keeps_definitions_witness :
  exists w',
    execute_workflow sample_id A_fails (start chain_ACB) = Some (Ok tt, w')
    /\ definitions_of w' = definitions_of (start chain_ACB).
Proof.
  eexists. split; [reflexivity |].
  apply (proj1 (execute_workflow_keeps_definitions sample_id A_fails
                  (start chain_ACB) _ (Ok tt) eq_refl)).
Defined.

Lemma run_body_status_independent (task : BaseTask) (o : work_outcome)
    (te1 te2 : TaskExecution) :
  status (run_body task o te1) = status (run_body task o te2).
Proof.
  destruct o as [|r|e]; simpl; try done.
  destruct (success r); [| done].
  by destruct (validate_result task r) as [[|]|].
Qed.

(** X17.  [execute_task] does not look at the state of the record it is
    given: on a registered task for which a task instance can be built, it
    assigns [RUNNING] and runs the body whether the task is pending,
    cancelled or already finished, and the status it ends in is the one
    that a fresh record of the same definition ends in. *)
Theorem execute_task_ignores_current_status
    (generated_id : TaskType -> string) (work : string -> work_outcome)
    (id : string) (w : world) (te : TaskExecution) :
  Dict.get id (tasks (coordinator w)) = Some te ->
  constructible (task_definition te) = true ->
  exists w' te' task,
    execute_task generated_id work id w = Ok w'
    /\ _create_task_instance generated_id (task_definition te) = Ok task
    /\ Dict.get id (tasks (coordinator w')) = Some te'
    /\ status te'
       = status (run_body task (work id) (new_execution (task_definition te)))
    /\ history w' = history w ++ [(id, RUNNING); (id, status te')]
    /\ start_time te' = Some (now w).
Proof.
  intros Hget Hsup. unfold execute_task. rewrite Hget.
  destruct (create_task_instance_constructible generated_id _ Hsup) as [task Htask].
  rewrite Htask. eexists. eexists. exists task.
  split; [reflexivity |]. split; [done |]. simpl.
  split; [apply dict_get_set_eq |]. simpl.
  split; [apply run_body_status_independent |]. split; [done |].
  destruct (work id) as [|r|e]; simpl; try done.
  destruct (success r); [| done].
  by destruct (validate_result task r) as [[|]|].
Qed.

Lemma execute_task_ignores_current_status_witness :
  exists w' te' task,
    execute_task sample_id all_succeed "B" chain_ACB_B_cancelled = Ok w'
    /\ _create_task_instance sample_id
         (task_definition
            (set_status CANCELLED
               (new_execution (sample_definition "B" RISK_ANALYSIS ["A"]))))
       = Ok task
    /\ Dict.get "B" (tasks (coordinator w')) = Some te'
    /\ status te'
       = status (run_body task (all_succeed "B")
                   (new_execution
                      (task_definition
                         (set_status CANCELLED
                            (new_execution
                               (sample_definition "B" RISK_ANALYSIS ["A"]))))))
    /\ history w'
       = history chain_ACB_B_cancelled ++ [("B", RUNNING); ("B", status te')]
    /\ start_time te' = Some (now chain_ACB_B_cancelled).
Proof.
  apply (execute_task_ignores_current_status sample_id all_succeed "B"
           chain_ACB_B_cancelled
           (set_status CANCELLED
              (new_execution (sample_definition "B" RISK_ANALYSIS ["A"]))));
    reflexivity.
Defined.
